(** * openmc.deplete.pool: the depletion dispatcher

  A shallow embedding of [src/openmc/deplete/pool.py]: the serial pool
  shim, the dispatcher class with its [deplete] method, and the one-shot
  [deplete] function, together with the lazy iterators of Python that the
  method composes ([map], [zip], [itertools.repeat], [itertools.starmap],
  [list]).

  Python evaluates these iterators on demand, so the calls to the matrix
  builder and to the integration function are interleaved in the serial
  variant.  The embedding keeps that: computations live in a small state
  and exception monad whose state carries the dispatcher object, a log of
  the calls made to the collaborators and to the executor, and the choices
  of the process scheduler. *)

From Stdlib Require Import List String Arith Lia DecimalString Permutation.
From stdpp Require Import base list sorting.

Set Implicit Arguments.
Local Open Scope nat_scope.
Local Open Scope list_scope.

(** ** Outcomes of a Python call *)

Section Outcome.
Context {E : Type}.

(** The exceptions that can leave the module: the [ValueError] that
    [deplete] raises itself, the two that the language raises on an index
    out of range and on an unbound local, [MemoryError] for [list] applied
    to an iterator that never ends, and whatever the collaborators raise,
    among which [StopIteration], the exception by which [__next__] tells
    that an iterator is exhausted. *)
Inductive exn : Type :=
| ValueError (msg : string)
| IndexError
| UnboundLocalError
| MemoryError
| StopIteration
| Raised (e : E).

Definition is_stop (e : exn) : bool :=
  match e with
  | StopIteration => true
  | _ => false
  end.

Inductive outcome (A : Type) : Type :=
| Returns (a : A)
| Raises (e : exn).
End Outcome.

Arguments exn : clear implicits.
Arguments outcome : clear implicits.
Arguments Returns {E A} a.
Arguments Raises {E A} e.

Section Model.
(** The collaborators' data are opaque to the dispatcher. *)
Context {Rate Yield Matrix Vec Time E : Type}.

Abbreviation result := (outcome E).

(** ** Data model *)

(** [multiprocessing.Pool] or the serial [PoolShim]: the two classes that
    [_pool_class] can hold. *)
Inductive pool_class : Type := Pool | PoolShim.

(** An instance of [DepletionDispatcher]: its only attribute. *)
Record DepletionDispatcher : Type := { _pool_class : pool_class }.

(** What the dispatcher reads of an [openmc.deplete.Chain]. *)
Record Chain : Type := {
  fission_yields : list Yield;
  form_matrix : Rate -> Yield -> result Matrix
}.

(** The values the constructor is given for [use_multiprocessing]. *)
Inductive pyobj : Type :=
| PyBool (b : bool)
| PyClass (c : pool_class).

(** Truth value of an object: a class is true. *)
Definition truthy (o : pyobj) : bool :=
  match o with
  | PyBool b => b
  | PyClass _ => true
  end.

(** Observable calls, in the order they happen. *)
Inductive event : Type :=
| EvFormMatrix (c : Chain) (r : Rate) (y : Yield)
| EvMatrixFunc (c : Chain) (r : Rate) (y : Yield)
| EvFunc (m : Matrix) (v : Vec) (t : Time)
| EvEnter (p : pool_class)
| EvExit (p : pool_class).

(** ** The monad *)

Record state : Type := State {
  this : DepletionDispatcher;   (* the object a running method is bound to *)
  log : list event;             (* calls made so far, oldest first *)
  oracle : list nat             (* choices of the process scheduler *)
}.

Definition M (A : Type) : Type := state -> state * result A.

Definition ret {A} (a : A) : M A := fun s => (s, Returns a).

Definition raise {A} (e : exn E) : M A := fun s => (s, Raises e).

Definition bind {A B} (m : M A) (k : A -> M B) : M B :=
  fun s =>
    match m s with
    | (s', Returns a) => k a s'
    | (s', Raises e) => (s', Raises e)
    end.

(** [try: m except BaseException as e: ...], the outcome made a value. *)
Definition attempt {A} (m : M A) : M (result A) :=
  fun s => let (s', r) := m s in (s', Returns r).

(** A call made inside [__next__] of a [map] or of an
    [itertools.starmap]: a [StopIteration] that leaves the callable leaves
    [__next__] as well, where the consumer takes it for the end of the
    iterator.  [None] is that end; any other exception goes through. *)
Definition catch_stop {A} (m : M A) : M (option A) :=
  fun s =>
    match m s with
    | (s', Returns a) => (s', Returns (Some a))
    | (s', Raises e) =>
        if is_stop e then (s', Returns None) else (s', Raises e)
    end.

Definition lift {A} (r : result A) : M A := fun s => (s, r).

Definition emit (evs : list event) (s : state) : state :=
  {| this := this s; log := log s ++ evs; oracle := oracle s |}.

Definition tell (ev : event) : M unit := fun s => (emit [ev] s, Returns tt).

Definition gets {A} (f : state -> A) : M A := fun s => (s, Returns (f s)).

End Model.

Notation "x <- m ; k" := (bind m (fun x => k))
  (at level 20, m at level 100, k at level 200, only parsing).

Section Iterators.
Context {Rate Yield Matrix Vec Time E : Type}.

Abbreviation M := (@M Rate Yield Matrix Vec Time E).

(** ** Iterators

    An iterator is what [next] can be called on.  [it_list l] is [iter(l)],
    [it_repeat a] is [itertools.repeat(a)], [it_map2] and [it_map3] are the
    builtin [map] over two and three iterables, [it_zip3] is [zip] over
    three, and [it_starmap] is [itertools.starmap] on triples.  The function
    of a [map] or [starmap] is a computation: it may log and may raise. *)
Inductive iterator : Type -> Type :=
| it_list {A} (l : list A) : iterator A
| it_repeat {A} (a : A) : iterator A
| it_map2 {A B C} (f : A -> B -> M C)
    (ia : iterator A) (ib : iterator B) : iterator C
| it_map3 {A B C D} (f : A -> B -> C -> M D)
    (ia : iterator A) (ib : iterator B) (ic : iterator C) : iterator D
| it_zip3 {A B C}
    (ia : iterator A) (ib : iterator B) (ic : iterator C) : iterator (A * B * C)
| it_starmap {A B C D} (f : A -> B -> C -> M D)
    (i : iterator (A * B * C)) : iterator D.

(** [next(it)]: [None] stands for [StopIteration].  The argument iterators
    are advanced from left to right and the first one that is exhausted ends
    the iteration, the items already taken from the ones before it being
    lost, as in CPython.  The function of a [map] or [starmap] that raises
    [StopIteration] ends the iteration in the same way. *)
Fixpoint next {A} (it : iterator A) : M (option (A * iterator A)) :=
  match it with
  | it_list l =>
      match l with
      | [] => ret None
      | a :: l' => ret (Some (a, it_list l'))
      end
  | it_repeat a => ret (Some (a, it_repeat a))
  | it_map2 f ia ib =>
      ra <- next ia;
      match ra with
      | None => ret None
      | Some (a, ia') =>
          rb <- next ib;
          match rb with
          | None => ret None
          | Some (b, ib') =>
              rc <- catch_stop (f a b);
              match rc with
              | None => ret None
              | Some c => ret (Some (c, it_map2 f ia' ib'))
              end
          end
      end
  | it_map3 f ia ib ic =>
      ra <- next ia;
      match ra with
      | None => ret None
      | Some (a, ia') =>
          rb <- next ib;
          match rb with
          | None => ret None
          | Some (b, ib') =>
              rc <- next ic;
              match rc with
              | None => ret None
              | Some (c, ic') =>
                  rd <- catch_stop (f a b c);
                  match rd with
                  | None => ret None
                  | Some d => ret (Some (d, it_map3 f ia' ib' ic'))
                  end
              end
          end
      end
  | it_zip3 ia ib ic =>
      ra <- next ia;
      match ra with
      | None => ret None
      | Some (a, ia') =>
          rb <- next ib;
          match rb with
          | None => ret None
          | Some (b, ib') =>
              rc <- next ic;
              match rc with
              | None => ret None
              | Some (c, ic') => ret (Some ((a, b, c), it_zip3 ia' ib' ic'))
              end
          end
      end
  | it_starmap f i =>
      r <- next i;
      match r with
      | None => ret None
      | Some ((a, b, c), i') =>
          rd <- catch_stop (f a b c);
          match rd with
          | None => ret None
          | Some d => ret (Some (d, it_starmap f i'))
          end
      end
  end.

(** An upper bound on the number of items an iterator can still give, when
    there is one: a [repeat] has none, a [map] or [zip] ends with its
    shortest argument. *)
Definition shortest (a b : option nat) : option nat :=
  match a, b with
  | Some n, Some m => Some (Nat.min n m)
  | Some n, None => Some n
  | None, b => b
  end.

Fixpoint remaining {A} (it : iterator A) : option nat :=
  match it with
  | it_list l => Some (length l)
  | it_repeat _ => None
  | it_map2 _ ia ib => shortest (remaining ia) (remaining ib)
  | it_map3 _ ia ib ic =>
      shortest (remaining ia) (shortest (remaining ib) (remaining ic))
  | it_zip3 ia ib ic =>
      shortest (remaining ia) (shortest (remaining ib) (remaining ic))
  | it_starmap _ i => remaining i
  end.

(** The loop of [list(it)]: call [next] until [StopIteration].  [fuel]
    bounds the number of calls; it running out is a list that cannot be
    held in memory. *)
Fixpoint drain {A} (fuel : nat) (it : iterator A) : M (list A) :=
  match fuel with
  | 0 => raise MemoryError
  | S fuel' =>
      r <- next it;
      match r with
      | None => ret []
      | Some (a, it') => l <- drain fuel' it'; ret (a :: l)
      end
  end.

(** [list(it)].  An iterator of at most [n] items is exhausted by [n + 1]
    calls of [next]. *)
Definition py_list {A} (it : iterator A) : M (list A) :=
  match remaining it with
  | Some n => drain (S n) it
  | None => raise MemoryError
  end.
End Iterators.

(** ** The executors and the dispatcher *)

Section Dispatcher.
Context {Rate Yield Matrix Vec Time E : Type}.

Abbreviation M := (@M Rate Yield Matrix Vec Time E).
Abbreviation iterator := (@iterator Rate Yield Matrix Vec Time E).
Abbreviation Chain := (@Chain Rate Yield Matrix E).
Abbreviation result := (outcome E).

(** The tuples [zip(matrices, x, repeat(dt))] gives. *)
Definition task : Type := Matrix * Vec * Time.

(** The three callables of a [deplete] call, as logged computations:
    [chain.form_matrix], a caller's [matrix_func] and the integration
    function [func]. *)
Definition call_form_matrix (chain : Chain) (r : Rate) (y : Yield) : M Matrix :=
  _u <- tell (EvFormMatrix chain r y);
  lift (form_matrix chain r y).

Definition call_matrix_func (matrix_func : Chain -> Rate -> Yield -> result Matrix)
    (chain : Chain) (r : Rate) (y : Yield) : M Matrix :=
  _u <- tell (EvMatrixFunc chain r y);
  lift (matrix_func chain r y).

Definition call_func (func : Matrix -> Vec -> Time -> result Vec)
    (m : Matrix) (v : Vec) (t : Time) : M Vec :=
  _u <- tell (EvFunc m v t);
  lift (func m v t).

(** [__enter__] of either class returns the pool itself. *)
Definition pool_enter (p : pool_class) : M pool_class :=
  _u <- tell (EvEnter p);
  ret p.

(** [__exit__] of either class returns [None], which is false: an exception
    of the body is not swallowed. *)
Definition pool_exit (p : pool_class) (exc : option (exn E)) : M bool :=
  _u <- tell (EvExit p);
  ret false.

(** [with cls() as pool: body].  [None] is a body whose exception
    [__exit__] swallowed, so that nothing was assigned in it. *)
Definition with_pool {A} (cls : pool_class) (body : pool_class -> M A)
    : M (option A) :=
  pool <- pool_enter cls;
  r <- attempt (body pool);
  match r with
  | Returns a =>
      _u <- pool_exit cls None;
      ret (Some a)
  | Raises e =>
      swallowed <- pool_exit cls (Some e);
      if swallowed : bool then ret None else raise e
  end.

(** [PoolShim.starmap]: [itertools.starmap(func, inputs)], nothing is
    computed yet. *)
Definition PoolShim_starmap (func : Matrix -> Vec -> Time -> M Vec)
    (inputs : iterator task) : M (iterator Vec) :=
  ret (it_starmap func inputs).

(** Modelled from the spec: the scheduling of the worker processes of
    [multiprocessing.Pool], which the sources do not contain.  These are the
    scheduler's next [n] choices. *)
Definition take_picks (n : nat) : M (list nat) :=
  fun s =>
    ({| this := this s; log := log s; oracle := drop n (oracle s) |},
     Returns (take n (oracle s))).

(** Modelled from the spec: the order in which the tasks submitted to a
    [multiprocessing.Pool] complete.  Each choice designates one of the
    tasks still pending; with no choice left they complete as submitted.
    Every order is the image of some list of choices. *)
Fixpoint completion_order {A} (picks : list nat) (pending : list A) : list A :=
  match picks with
  | [] => pending
  | k :: picks' =>
      match pending with
      | [] => []
      | a0 :: _ =>
          let j := k mod length pending in
          nth j pending a0 :: completion_order picks' (delete j pending)
      end
  end.

(** Modelled from the spec: the results of a [multiprocessing.Pool] are
    kept by position.  [_value[i] = v]: the result of task [i] takes its
    task's position among the results that have arrived. *)
Fixpoint store (i : nat) (v : Vec) (value : list (nat * Vec)) : list (nat * Vec) :=
  match value with
  | [] => [(i, v)]
  | (j, w) :: value' =>
      if i <? j then (i, v) :: value else (j, w) :: store i v value'
  end.

(** Modelled from the spec: the result handler of [multiprocessing.Pool].
    Tasks complete one after the other; results are stored while no task
    has failed, the first exception is kept, and the whole is ready when no
    task is left. *)
Fixpoint collect (func : Matrix -> Vec -> Time -> M Vec)
    (completing : list (nat * task)) (value : list (nat * Vec))
    (err : option (exn E)) : M (list Vec) :=
  match completing with
  | [] =>
      match err with
      | None => ret (map snd value)
      | Some e => raise e
      end
  | (i, (m, v, t)) :: rest =>
      r <- attempt (func m v t);
      match r, err with
      | Returns w, None => collect func rest (store i w value) None
      | Raises e, None => collect func rest value (Some e)
      | _, Some _ => collect func rest value err
      end
  end.

(** Modelled from the spec: [multiprocessing.Pool.starmap].  The class
    comes from Python's standard library and is not among the sources.  Its
    [starmap] first makes a list of its iterable in the calling process,
    then has the workers apply [func] to every tuple, the tuples completing
    in an order the caller does not control, and returns the results in the
    order of the tuples; an exception of a worker is raised again in the
    caller. *)
Definition Pool_starmap (func : Matrix -> Vec -> Time -> M Vec)
    (inputs : iterator task) : M (iterator Vec) :=
  tasks <- py_list inputs;
  picks <- take_picks (length tasks);
  let submitted := combine (seq 0 (length tasks)) tasks in
  results <- collect func (completion_order picks submitted) [] None;
  ret (it_list results).

(** [pool.starmap(func, inputs)] on an instance of either class. *)
Definition pool_starmap (pool : pool_class)
    (func : Matrix -> Vec -> Time -> M Vec) (inputs : iterator task)
    : M (iterator Vec) :=
  match pool with
  | Pool => Pool_starmap func inputs
  | PoolShim => PoolShim_starmap func inputs
  end.

(** [str(n)] of a length. *)
Definition str (n : nat) : string := NilEmpty.string_of_uint (Nat.to_uint n).

Definition mismatch_message (nyields ncompositions : nat) : string :=
  ("Number of material fission yield distributions " ++ str nyields
   ++ " is not equal to the number of compositions " ++ str ncompositions)%string.

(** [DepletionDispatcher.__init__]. *)
Definition DepletionDispatcher_init (use_multiprocessing : pyobj)
    : DepletionDispatcher :=
  {| _pool_class := if truthy use_multiprocessing then Pool else PoolShim |}.

(** [DepletionDispatcher.deplete], run on the object [this] of the state.
    [rates] is iterated material by material. *)
Definition DepletionDispatcher_deplete
    (func : Matrix -> Vec -> Time -> result Vec) (chain : Chain)
    (x : list Vec) (rates : list Rate) (dt : Time)
    (matrix_func : option (Chain -> Rate -> Yield -> result Matrix))
    : M (list Vec) :=
  let fission_yields := fission_yields chain in
  fission_yields <-
    (if length fission_yields =? 1 then
       match fission_yields with
       | y :: _ => ret (it_repeat y)
       | [] => raise IndexError
       end
     else if negb (length fission_yields =? length x) then
       raise (ValueError (mismatch_message (length fission_yields) (length x)))
     else ret (it_list fission_yields));
  let matrices :=
    match matrix_func with
    | None => it_map2 (call_form_matrix chain) (it_list rates) fission_yields
    | Some matrix_func =>
        it_map3 (call_matrix_func matrix_func)
          (it_repeat chain) (it_list rates) fission_yields
    end in
  cls <- gets (fun s => _pool_class (this s));
  x_result <-
    with_pool cls (fun pool =>
      let inputs := it_zip3 matrices (it_list x) (it_repeat dt) in
      computed <- pool_starmap pool (call_func func) inputs;
      py_list computed);
  match x_result with
  | Some x_result => ret x_result
  | None => raise UnboundLocalError
  end.

(** A method call [obj.m(...)] on an object other than the current one. *)
Definition call_on {A} (obj : DepletionDispatcher) (m : M A) : M A :=
  fun s =>
    let (s', r) := m {| this := obj; log := log s; oracle := oracle s |} in
    ({| this := this s; log := log s'; oracle := oracle s' |}, r).

(** The module-level [deplete]: its dispatcher is built from the class
    [Pool] itself and the call passes [matrix_func=None]. *)
Definition deplete
    (func : Matrix -> Vec -> Time -> result Vec) (chain : Chain)
    (x : list Vec) (rates : list Rate) (dt : Time)
    (matrix_func : option (Chain -> Rate -> Yield -> result Matrix))
    : M (list Vec) :=
  call_on (DepletionDispatcher_init (PyClass Pool))
    (DepletionDispatcher_deplete func chain x rates dt None).
End Dispatcher.

(** ** What a run logs and returns, as functions of the inputs

    The functions of this section are not part of the program: they
    describe, by recursion on the inputs, the calls a run makes and its
    outcome.  The lemmas below relate them to [DepletionDispatcher_deplete]
    and the theorems on the claims go through them. *)

Section Traces.
Context {Rate Yield Matrix Vec Time E : Type}.

Abbreviation M := (@M Rate Yield Matrix Vec Time E).
Abbreviation iterator := (@iterator Rate Yield Matrix Vec Time E).
Abbreviation event := (@event Rate Yield Matrix Vec Time E).
Abbreviation Chain := (@Chain Rate Yield Matrix E).
Abbreviation result := (outcome E).
Abbreviation task := (@task Matrix Vec Time).

(** The event and the outcome of a call of the matrix builder in use. *)
Definition builder_event
    (matrix_func : option (Chain -> Rate -> Yield -> result Matrix))
    (chain : Chain) (r : Rate) (y : Yield) : event :=
  match matrix_func with
  | None => EvFormMatrix chain r y
  | Some _ => EvMatrixFunc chain r y
  end.

Definition builder_outcome
    (matrix_func : option (Chain -> Rate -> Yield -> result Matrix))
    (chain : Chain) (r : Rate) (y : Yield) : result Matrix :=
  match matrix_func with
  | None => form_matrix chain r y
  | Some f => f chain r y
  end.

(** The yield each element of [rates] is built with: the single entry of a
    table of length one, the entry at the same position otherwise. *)
Definition paired (rates : list Rate) (yields : list Yield) : list (Rate * Yield) :=
  match yields with
  | [y] => map (fun r => (r, y)) rates
  | _ => combine rates yields
  end.

(** Whether the table passes the check of its length. *)
Definition table_ok (yields : list Yield) (x : list Vec) : bool :=
  (length yields =? 1) || (length yields =? length x).

Definition is_build (e : event) : bool :=
  match e with
  | EvFormMatrix _ _ _ | EvMatrixFunc _ _ _ => true
  | _ => false
  end.

Definition is_func (e : event) : bool :=
  match e with
  | EvFunc _ _ _ => true
  | _ => false
  end.

Definition is_pool (e : event) : bool :=
  match e with
  | EvEnter _ | EvExit _ => true
  | _ => false
  end.

Definition func_event (t : task) : event :=
  match t with (m, v, dt) => EvFunc m v dt end.

(** An iterator of matrices that applies [build] to the pairs [ps] in
    order: the four shapes [deplete] gives to [matrices]. *)
Inductive generates : (Rate -> Yield -> M Matrix) -> iterator Matrix ->
    list (Rate * Yield) -> Prop :=
| gen_map2_repeat build rs y :
    generates build (it_map2 build (it_list rs) (it_repeat y))
      (map (fun r => (r, y)) rs)
| gen_map2_list build rs ys :
    generates build (it_map2 build (it_list rs) (it_list ys)) (combine rs ys)
| gen_map3_repeat (f : Chain -> Rate -> Yield -> M Matrix) c rs y :
    generates (f c) (it_map3 f (it_repeat c) (it_list rs) (it_repeat y))
      (map (fun r => (r, y)) rs)
| gen_map3_list (f : Chain -> Rate -> Yield -> M Matrix) c rs ys :
    generates (f c) (it_map3 f (it_repeat c) (it_list rs) (it_list ys))
      (combine rs ys).

Section WithCallables.
Variable ev : Rate -> Yield -> event.
Variable out : Rate -> Yield -> result Matrix.
Variable func : Matrix -> Vec -> Time -> result Vec.
Variable dt : Time.

(** A logged call of the builder. *)
Definition built (r : Rate) (y : Yield) : M Matrix :=
  fun s => (emit [ev r y] s, out r y).

Definition push {A} (a : A) (r : result (list A)) : result (list A) :=
  match r with
  | Returns l => Returns (a :: l)
  | Raises e => Raises e
  end.

(** [list(zip(matrices, x, repeat(dt)))]: a matrix is built before the
    atom vectors are found exhausted, and a builder that raises
    [StopIteration] ends the list. *)
Fixpoint zip_trace (ps : list (Rate * Yield)) (xs : list Vec)
    : list event * result (list task) :=
  match ps with
  | [] => ([], Returns [])
  | (r, y) :: ps' =>
      match out r y with
      | Raises e => ([ev r y], if is_stop e then Returns [] else Raises e)
      | Returns m =>
          match xs with
          | [] => ([ev r y], Returns [])
          | v :: xs' =>
              let (evs, res) := zip_trace ps' xs' in
              (ev r y :: evs, push (m, v, dt) res)
          end
      end
  end.

(** [list(starmap(func, zip(matrices, x, repeat(dt))))]: each matrix is
    built when its tuple is asked for, and a builder or a [func] that
    raises [StopIteration] ends the list. *)
Fixpoint serial_trace (ps : list (Rate * Yield)) (xs : list Vec)
    : list event * result (list Vec) :=
  match ps with
  | [] => ([], Returns [])
  | (r, y) :: ps' =>
      match out r y with
      | Raises e => ([ev r y], if is_stop e then Returns [] else Raises e)
      | Returns m =>
          match xs with
          | [] => ([ev r y], Returns [])
          | v :: xs' =>
              match func m v dt with
              | Raises e =>
                  ([ev r y; EvFunc m v dt],
                   if is_stop e then Returns [] else Raises e)
              | Returns w =>
                  let (evs, res) := serial_trace ps' xs' in
                  (ev r y :: EvFunc m v dt :: evs, push w res)
              end
          end
      end
  end.

(** The result handler of the process pool on pure outcomes. *)
Fixpoint collect_trace (completing : list (nat * task))
    (value : list (nat * Vec)) (err : option (exn E)) : result (list Vec) :=
  match completing with
  | [] =>
      match err with
      | None => Returns (map snd value)
      | Some e => Raises e
      end
  | (i, (m, v, t)) :: rest =>
      match func m v t, err with
      | Returns w, None => collect_trace rest (store i w value) None
      | Raises e, None => collect_trace rest value (Some e)
      | _, Some _ => collect_trace rest value err
      end
  end.

(** The applications of [func] to a list of tuples, in order. *)
Fixpoint apply_all (tasks : list task) : result (list Vec) :=
  match tasks with
  | [] => Returns []
  | (m, v, t) :: rest =>
      match func m v t with
      | Returns w => push w (apply_all rest)
      | Raises e => Raises e
      end
  end.

(** [list(itertools.starmap(func, tasks))] on a list of tuples: the
    results in order, ended without error by a [func] that raises
    [StopIteration]. *)
Fixpoint starmap_results (tasks : list task) : result (list Vec) :=
  match tasks with
  | [] => Returns []
  | (m, v, t) :: rest =>
      match func m v t with
      | Returns w => push w (starmap_results rest)
      | Raises e => if is_stop e then Returns [] else Raises e
      end
  end.

(** The exception of the first logged call that raised. *)
Fixpoint first_raise (outcome_of : event -> option (exn E)) (evs : list event)
    : option (exn E) :=
  match evs with
  | [] => None
  | e :: evs' =>
      match outcome_of e with
      | Some x => Some x
      | None => first_raise outcome_of evs'
      end
  end.
End WithCallables.

(** The exception of an outcome, if it is one. *)
Definition exception_of {A} (r : result A) : option (exn E) :=
  match r with
  | Raises x => Some x
  | Returns _ => None
  end.

(** What a logged call raised, if it did, for the callables of a run. *)
Definition raised_by
    (func : Matrix -> Vec -> Time -> result Vec)
    (matrix_func : option (Chain -> Rate -> Yield -> result Matrix))
    (e : event) : option (exn E) :=
  match e with
  | EvFormMatrix c r y => exception_of (form_matrix c r y)
  | EvMatrixFunc c r y =>
      match matrix_func with
      | Some f => exception_of (f c r y)
      | None => None
      end
  | EvFunc m v t => exception_of (func m v t)
  | EvEnter _ | EvExit _ => None
  end.

(** What [DepletionDispatcher_deplete] does once [matrices] is made. *)
Definition dispatch (func : Matrix -> Vec -> Time -> result Vec)
    (matrices : iterator Matrix) (x : list Vec) (dt : Time) : M (list Vec) :=
  cls <- gets (fun s => _pool_class (this s));
  x_result <-
    with_pool cls (fun pool =>
      let inputs := it_zip3 matrices (it_list x) (it_repeat dt) in
      computed <- pool_starmap pool (call_func func) inputs;
      py_list computed);
  match x_result with
  | Some x_result => ret x_result
  | None => raise UnboundLocalError
  end.

(** The tuples handed to the process pool, numbered, in the order they
    complete for the scheduler's choices in [s]. *)
Definition completing (s : @state Rate Yield Matrix Vec Time E)
    (tasks : list task) : list (nat * task) :=
  completion_order (take (length tasks) (oracle s))
    (combine (seq 0 (length tasks)) tasks).

(** The calls of a run between the acquisition of the executor and its
    release, and the outcome of the run, when the table of yields passed
    the check: the serial shim interleaves builder and [func]; the process
    pool builds every tuple first and then has [func] applied to them. *)
Definition run_trace (func : Matrix -> Vec -> Time -> result Vec)
    (chain : Chain) (x : list Vec) (rates : list Rate) (dt : Time)
    (matrix_func : option (Chain -> Rate -> Yield -> result Matrix))
    (s : @state Rate Yield Matrix Vec Time E)
    : list event * result (list Vec) :=
  let ev := builder_event matrix_func chain in
  let out := builder_outcome matrix_func chain in
  let ps := paired rates (fission_yields chain) in
  match _pool_class (this s) with
  | PoolShim => serial_trace ev out func dt ps x
  | Pool =>
      match zip_trace ev out dt ps x with
      | (evs, Raises e) => (evs, Raises e)
      | (evs, Returns tasks) =>
          (evs ++ map (fun it => func_event it.2) (completing s tasks),
           collect_trace func (completing s tasks) [] None)
      end
  end.

(** The events a run added to the log of [s], and the builder calls among
    them. *)
Definition new_events (s s' : @state Rate Yield Matrix Vec Time E) : list event :=
  drop (length (log s)) (log s').

Definition builder_calls (s s' : @state Rate Yield Matrix Vec Time E)
    : list event :=
  List.filter is_build (new_events s s').

End Traces.

(** ** A small instance

    Rates, yields, matrices, atom vectors and times are numbers here.  The
    chain builds the matrix [r + y], a caller's builder [r * y], and the
    integration gives [m * v + t]. *)

Definition ex_chain (yields : list nat) : @Chain nat nat nat nat :=
  {| fission_yields := yields; form_matrix := fun r y => Returns (r + y) |}.

Definition ex_matrix_func (c : @Chain nat nat nat nat) (r y : nat)
    : outcome nat nat :=
  Returns (r * y).

Definition ex_func (m v t : nat) : outcome nat nat := Returns (m * v + t).

(** An integration that fails on the atom vectors below [3], raising the
    vector. *)
Definition ex_failing_func (m v t : nat) : outcome nat nat :=
  if v <? 3 then Raises (Raised v) else Returns (m * v + t).

(** A caller's builder that fails on the rates above [25], raising the
    rate. *)
Definition ex_failing_matrix_func (c : @Chain nat nat nat nat) (r y : nat)
    : outcome nat nat :=
  if 25 <? r then Raises (Raised r) else Returns (r * y).

(** An integration that raises [StopIteration] on the atom vector [2]. *)
Definition ex_stopping_func (m v t : nat) : outcome nat nat :=
  if v =? 2 then Raises StopIteration else Returns (m * v + t).

(** A dispatcher just built, an empty log, and the scheduler's choices. *)
Definition ex_state (use_multiprocessing : bool) (picks : list nat)
    : @state nat nat nat nat nat nat :=
  {| this := DepletionDispatcher_init (PyBool use_multiprocessing);
     log := [];
     oracle := picks |}.

(** * Proofs *)

Section Proofs.
Context {Rate Yield Matrix Vec Time E : Type}.

Abbreviation M := (@M Rate Yield Matrix Vec Time E).
Abbreviation state := (@state Rate Yield Matrix Vec Time E).
Abbreviation iterator := (@iterator Rate Yield Matrix Vec Time E).
Abbreviation event := (@event Rate Yield Matrix Vec Time E).
Abbreviation Chain := (@Chain Rate Yield Matrix E).
Abbreviation result := (outcome E).
Abbreviation task := (@task Matrix Vec Time).

Implicit Types (s : state) (evs : list event) (ps : list (Rate * Yield)).
Implicit Types (xs x : list Vec) (rates : list Rate) (chain : Chain).

(** ** The log *)

Lemma emit_nil s : emit [] s = s.
Proof. destruct s; unfold emit; simpl; by rewrite app_nil_r. Qed.

Lemma emit_emit evs1 evs2 s : emit evs2 (emit evs1 s) = emit (evs1 ++ evs2) s.
Proof. unfold emit; simpl; by rewrite app_assoc. Qed.

Lemma bind_run {A B} (m : M A) (k : A -> M B) s :
  bind m k s =
  match m s with
  | (s', Returns a) => k a s'
  | (s', Raises e) => (s', Raises e)
  end.
Proof. reflexivity. Qed.

Lemma ret_run {A} (a : A) s : ret a s = (s, Returns a).
Proof. reflexivity. Qed.

Lemma catch_stop_run {A} (m : M A) s :
  catch_stop m s =
  match m s with
  | (s', Returns a) => (s', Returns (Some a))
  | (s', Raises e) =>
      if is_stop e then (s', Returns None) else (s', Raises e)
  end.
Proof. reflexivity. Qed.

(** ** The iterators of matrices *)

Lemma generates_next (build : Rate -> Yield -> M Matrix) (it : iterator Matrix) ps :
  generates build it ps ->
  match ps with
  | [] => forall s, next it s = (s, Returns None)
  | (r, y) :: ps' =>
      exists it', generates build it' ps' /\
        forall s, next it s =
          (rc <- catch_stop (build r y);
           match rc with
           | None => ret None
           | Some m => ret (Some (m, it'))
           end) s
  end.
Proof.
  destruct 1 as [build rs y|build rs ys|f c rs y|f c rs ys].
  - destruct rs as [|r rs]; simpl; [done|].
    eexists; split; [apply gen_map2_repeat|done].
  - destruct rs as [|r rs]; simpl; [done|].
    destruct ys as [|y ys]; simpl; [done|].
    eexists; split; [apply gen_map2_list|done].
  - destruct rs as [|r rs]; simpl; [done|].
    eexists; split; [apply gen_map3_repeat|done].
  - destruct rs as [|r rs]; simpl; [done|].
    destruct ys as [|y ys]; simpl; [done|].
    eexists; split; [apply gen_map3_list|done].
Qed.

Lemma generates_remaining (build : Rate -> Yield -> M Matrix) (it : iterator Matrix) ps :
  generates build it ps -> remaining it = Some (length ps).
Proof.
  destruct 1; simpl; rewrite ?length_map, ?length_combine; done.
Qed.

Section WithCallables.
Variable ev : Rate -> Yield -> event.
Variable out : Rate -> Yield -> result Matrix.
Variable func : Matrix -> Vec -> Time -> result Vec.
Variable dt : Time.

Lemma drain_zip ps : forall (it : iterator Matrix) xs fuel s,
  generates (built ev out) it ps ->
  Nat.min (length ps) (length xs) < fuel ->
  drain fuel (it_zip3 it (it_list xs) (it_repeat dt)) s =
  (emit (zip_trace ev out dt ps xs).1 s, (zip_trace ev out dt ps xs).2).
Proof.
  induction ps as [|[r y] ps IH]; intros it xs fuel s Hg Hfuel;
    pose proof (generates_next Hg) as Hn; simpl in Hn.
  - destruct fuel as [|fuel]; [lia|].
    simpl. rewrite bind_run. simpl. rewrite bind_run, Hn. simpl.
    by rewrite emit_nil.
  - destruct Hn as (it' & Hg' & Hn).
    destruct fuel as [|fuel]; [simpl in Hfuel; lia|].
    simpl. rewrite bind_run. simpl. rewrite bind_run, Hn.
    rewrite bind_run, catch_stop_run. unfold built at 1.
    destruct (out r y) as [m|e]; simpl; [|by destruct (is_stop e)].
    destruct xs as [|v xs]; simpl; [done|].
    rewrite bind_run, IH; [|done|simpl in Hfuel; lia].
    destruct (zip_trace ev out dt ps xs) as [evs [l|e]]; simpl;
      by rewrite emit_emit.
Qed.

Lemma drain_serial ps : forall (it : iterator Matrix) xs fuel s,
  generates (built ev out) it ps ->
  Nat.min (length ps) (length xs) < fuel ->
  drain fuel
    (it_starmap (call_func func) (it_zip3 it (it_list xs) (it_repeat dt))) s =
  (emit (serial_trace ev out func dt ps xs).1 s,
   (serial_trace ev out func dt ps xs).2).
Proof.
  induction ps as [|[r y] ps IH]; intros it xs fuel s Hg Hfuel;
    pose proof (generates_next Hg) as Hn; simpl in Hn.
  - destruct fuel as [|fuel]; [lia|].
    simpl. rewrite !bind_run. simpl. rewrite Hn. simpl.
    by rewrite emit_nil.
  - destruct Hn as (it' & Hg' & Hn).
    destruct fuel as [|fuel]; [simpl in Hfuel; lia|].
    simpl. rewrite !bind_run. simpl. rewrite Hn.
    rewrite bind_run, catch_stop_run. unfold built at 1.
    destruct (out r y) as [m|e]; simpl; [|by destruct (is_stop e)].
    destruct xs as [|v xs]; simpl; [done|].
    rewrite bind_run, catch_stop_run. unfold call_func at 1.
    rewrite bind_run. simpl.
    destruct (func m v dt) as [w|e]; simpl;
      [|destruct (is_stop e); simpl; by rewrite emit_emit].
    rewrite bind_run, IH; [|done|simpl in Hfuel; lia].
    destruct (serial_trace ev out func dt ps xs) as [evs [l|e]]; simpl;
      by rewrite !emit_emit.
Qed.

Lemma collect_run completing : forall value err s,
  collect (call_func func) completing value err s =
  (emit (map (fun it => func_event it.2) completing) s,
   collect_trace func completing value err).
Proof.
  induction completing as [|[i [[m v] t]] rest IH]; intros value err s.
  - simpl. rewrite emit_nil. by destruct err.
  - simpl. rewrite bind_run. unfold attempt, call_func. rewrite bind_run.
    simpl. destruct (func m v t) as [w|e], err as [e'|];
      rewrite IH, emit_emit; done.
Qed.

Lemma py_list_zip (it : iterator Matrix) ps xs s :
  generates (built ev out) it ps ->
  py_list (it_zip3 it (it_list xs) (it_repeat dt)) s =
  (emit (zip_trace ev out dt ps xs).1 s, (zip_trace ev out dt ps xs).2).
Proof.
  intros Hg. unfold py_list. cbn [remaining].
  rewrite (generates_remaining Hg). cbn [shortest].
  apply drain_zip; [done|lia].
Qed.

Lemma py_list_serial (it : iterator Matrix) ps xs s :
  generates (built ev out) it ps ->
  py_list
    (it_starmap (call_func func) (it_zip3 it (it_list xs) (it_repeat dt))) s =
  (emit (serial_trace ev out func dt ps xs).1 s,
   (serial_trace ev out func dt ps xs).2).
Proof.
  intros Hg. unfold py_list. cbn [remaining].
  rewrite (generates_remaining Hg). cbn [shortest].
  apply drain_serial; [done|lia].
Qed.
End WithCallables.

Lemma drain_list {A} (l : list A) : forall fuel s,
  length l < fuel -> drain fuel (it_list l) s = (s, Returns l).
Proof.
  induction l as [|a l IH]; intros [|fuel] s Hfuel; simpl in *; try lia.
  - done.
  - rewrite !bind_run. simpl. rewrite bind_run, IH by lia. done.
Qed.

Lemma py_list_list {A} (l : list A) s : py_list (it_list l) s = (s, Returns l).
Proof. unfold py_list; cbn [remaining]. apply drain_list. lia. Qed.

(** ** The method *)

Section Run.
Variable func : Matrix -> Vec -> Time -> result Vec.
Variable chain : Chain.
Variable x : list Vec.
Variable rates : list Rate.
Variable dt : Time.
Variable matrix_func : option (Chain -> Rate -> Yield -> result Matrix).

Abbreviation ev := (builder_event (Vec:=Vec) (Time:=Time) matrix_func chain).
Abbreviation out := (builder_outcome matrix_func chain).
Abbreviation ps := (paired rates (fission_yields chain)).
Abbreviation run := (DepletionDispatcher_deplete func chain x rates dt matrix_func).

Lemma deplete_invalid s :
  table_ok (fission_yields chain) x = false ->
  run s =
  (s, Raises (ValueError
        (mismatch_message (length (fission_yields chain)) (length x)))).
Proof.
  unfold table_ok. intros [H1 H2]%orb_false_iff.
  unfold DepletionDispatcher_deplete. rewrite bind_run, H1, H2. done.
Qed.

Lemma deplete_resolved :
  table_ok (fission_yields chain) x = true ->
  exists it : iterator Matrix,
    generates (built ev out) it ps /\
    forall s, run s = dispatch func it x dt s.
Proof.
  unfold table_ok, DepletionDispatcher_deplete, dispatch.
  destruct (fission_yields chain) as [|y [|y' ys]] eqn:Hfy; simpl.
  - intros Hlen. destruct matrix_func as [f|]; simpl.
    + eexists. split; [exact (gen_map3_list (call_matrix_func f) chain rates [])|].
      intros s. rewrite bind_run, Hlen. done.
    + eexists. split; [exact (gen_map2_list (call_form_matrix chain) rates [])|].
      intros s. rewrite bind_run, Hlen. done.
  - intros _. destruct matrix_func as [f|]; simpl.
    + eexists. split; [exact (gen_map3_repeat (call_matrix_func f) chain rates y)|].
      done.
    + eexists. split; [exact (gen_map2_repeat (call_form_matrix chain) rates y)|].
      done.
  - intros Hlen. destruct matrix_func as [f|]; simpl.
    + eexists. split;
        [exact (gen_map3_list (call_matrix_func f) chain rates (y :: y' :: ys))|].
      intros s. rewrite bind_run, Hlen. done.
    + eexists. split;
        [exact (gen_map2_list (call_form_matrix chain) rates (y :: y' :: ys))|].
      intros s. rewrite bind_run, Hlen. done.
Qed.

Lemma dispatch_PoolShim (it : iterator Matrix) s :
  generates (built ev out) it ps ->
  _pool_class (this s) = PoolShim ->
  dispatch func it x dt s =
  (emit (EvEnter PoolShim :: (serial_trace ev out func dt ps x).1
           ++ [EvExit PoolShim]) s,
   (serial_trace ev out func dt ps x).2).
Proof.
  intros Hg Hcls. unfold dispatch. rewrite bind_run. simpl. rewrite Hcls.
  unfold with_pool, pool_enter, pool_exit, attempt.
  rewrite !bind_run. simpl. rewrite !bind_run. unfold PoolShim_starmap.
  rewrite ret_run. cbn beta iota.
  rewrite (py_list_serial func dt x _ Hg).
  destruct (serial_trace ev out func dt ps x) as [evs [l|e]]; simpl;
    rewrite !emit_emit; done.
Qed.

Lemma dispatch_Pool (it : iterator Matrix) s :
  generates (built ev out) it ps ->
  _pool_class (this s) = Pool ->
  dispatch func it x dt s =
  match (zip_trace ev out dt ps x).2 with
  | Raises e =>
      (emit (EvEnter Pool :: (zip_trace ev out dt ps x).1 ++ [EvExit Pool]) s,
       Raises e)
  | Returns tasks =>
      ({| this := this s;
          log := log s ++ EvEnter Pool :: (zip_trace ev out dt ps x).1
                   ++ map (fun it => func_event it.2) (completing s tasks)
                   ++ [EvExit Pool];
          oracle := drop (length tasks) (oracle s) |},
       collect_trace func (completing s tasks) [] None)
  end.
Proof.
  intros Hg Hcls. unfold dispatch. rewrite bind_run. simpl. rewrite Hcls.
  unfold with_pool, pool_enter, pool_exit, attempt.
  rewrite !bind_run. simpl. unfold Pool_starmap. rewrite !bind_run.
  rewrite (py_list_zip dt x _ Hg).
  destruct (zip_trace ev out dt ps x) as [evs [tasks|e]]; simpl;
    [|by rewrite !emit_emit].
  rewrite bind_run. unfold take_picks. cbn beta iota.
  rewrite bind_run, collect_run. unfold completing. cbn [oracle emit].
  destruct (collect_trace _ _ _ _) as [l|e]; cbn beta iota.
  - rewrite ret_run. cbn beta iota. rewrite py_list_list. simpl.
    unfold emit; simpl. by rewrite <- !app_assoc.
  - simpl. unfold emit; simpl. by rewrite <- !app_assoc.
Qed.
End Run.

(** ** The process pool returns the results in the order of the tuples *)

Lemma map_fmap {A B} (f : A -> B) (l : list A) : map f l = f <$> l.
Proof. induction l; by f_equal/=. Qed.

Lemma completion_order_perm {A} picks : forall l : list A,
  completion_order picks l ≡ₚ l.
Proof.
  induction picks as [|k picks IH]; intros [|a l]; cbn [completion_order];
    try done.
  rewrite IH. symmetry. apply delete_Permutation.
  assert (Hlt : k mod length (a :: l) < length (a :: l))
    by (apply Nat.mod_upper_bound; cbn [length]; lia).
  destruct (lookup_lt_is_Some_2 _ _ Hlt) as [b Hb].
  by rewrite (nth_lookup_Some _ _ a _ Hb).
Qed.

Lemma store_fst i (w : Vec) value : (store i w value).*1 ≡ₚ i :: value.*1.
Proof.
  induction value as [|[j w'] value IH]; simpl; [done|].
  destruct (i <? j); simpl; [done|].
  by rewrite IH, Permutation_swap.
Qed.

Lemma store_elem i (w : Vec) value p :
  p ∈ store i w value <-> p = (i, w) \/ p ∈ value.
Proof.
  induction value as [|[j w'] value IH]; simpl.
  - rewrite list_elem_of_singleton, elem_of_nil. tauto.
  - destruct (i <? j); rewrite !elem_of_cons; [tauto|].
    rewrite IH. tauto.
Qed.

Lemma store_sorted i (w : Vec) value :
  StronglySorted lt value.*1 -> i ∉ value.*1 ->
  StronglySorted lt (store i w value).*1.
Proof.
  induction value as [|[j w'] value IH]; simpl; intros Hs Hi.
  - repeat constructor.
  - apply StronglySorted_inv in Hs as [Hs Hj].
    apply not_elem_of_cons in Hi as [Hij Hi].
    destruct (i <? j) eqn:Hlt; simpl.
    + apply Nat.ltb_lt in Hlt. constructor; [by constructor|].
      constructor; [done|]. eapply Forall_impl; [exact Hj|]. simpl; lia.
    + apply Nat.ltb_ge in Hlt. constructor; [by apply IH|].
      rewrite store_fst. constructor; [lia|done].
Qed.

Lemma seq_sorted a n : StronglySorted lt (seq a n).
Proof.
  revert a; induction n as [|n IH]; intros a; simpl; constructor; [done|].
  apply Forall_forall. intros j Hj%elem_of_seq. lia.
Qed.

Section WithFunc.
Variable func : Matrix -> Vec -> Time -> result Vec.

Lemma collect_trace_err order value e :
  collect_trace func order value (Some e) = Raises e.
Proof.
  revert value; induction order as [|[i [[m v] t]] rest IH]; intros value;
    simpl; [done|].
  by destruct (func m v t).
Qed.

Lemma apply_all_Forall2 tasks res :
  apply_all func tasks = Returns res <->
  Forall2 (fun (t : task) w => func t.1.1 t.1.2 t.2 = Returns w) tasks res.
Proof.
  revert res; induction tasks as [|[[m v] t] tasks IH]; intros res; simpl.
  - split; [by intros [= <-]; constructor|by inversion 1].
  - split.
    + intros H. destruct (func m v t) as [w|e] eqn:Hf; [|done].
      destruct (apply_all func tasks) as [ws|e] eqn:Ha; simplify_eq/=.
      constructor; [done|]. by apply IH.
    + intros H. inversion H as [|? w' ? ws' Hw Hws]; subst. simpl in Hw.
      apply IH in Hws. by rewrite Hw, Hws.
Qed.

Lemma collect_trace_ok (res : list Vec) :
  forall (order : list (nat * task)) (value : list (nat * Vec)),
  StronglySorted lt value.*1 ->
  (forall j w, (j, w) ∈ value -> res !! j = Some w) ->
  NoDup (order.*1 ++ value.*1) ->
  (forall i t, (i, t) ∈ order ->
     exists w, func t.1.1 t.1.2 t.2 = Returns w /\ res !! i = Some w) ->
  exists final,
    collect_trace func order value None = Returns (map snd final) /\
    StronglySorted lt final.*1 /\
    final.*1 ≡ₚ order.*1 ++ value.*1 /\
    (forall j w, (j, w) ∈ final -> res !! j = Some w).
Proof.
  induction order as [|[i [[m v] t]] rest IH]; intros value Hs Hval Hnd Hok.
  - exists value. by simpl.
  - destruct (Hok i (m, v, t)) as (w & Hw & Hi); [left|]. simpl in Hw.
    simpl. rewrite Hw. simpl in Hnd. apply NoDup_cons in Hnd as [Hi' Hnd].
    destruct (IH (store i w value)) as (final & H1 & H2 & H3 & H4).
    + apply store_sorted; [done|].
      intros Hin. apply Hi', elem_of_app. by right.
    + intros j w' [[= -> ->]|?]%store_elem; auto.
    + rewrite store_fst. rewrite <- Permutation_middle.
      by apply NoDup_cons.
    + intros i' t' Hin. apply Hok. by right.
    + exists final. split_and!; try done.
      rewrite H3, store_fst. by rewrite <- Permutation_middle.
Qed.

Lemma collect_trace_Returns_inv order : forall value res,
  collect_trace func order value None = Returns res ->
  Forall (fun it : nat * task =>
            exists w, func it.2.1.1 it.2.1.2 it.2.2 = Returns w) order.
Proof.
  induction order as [|[i [[m v] t]] rest IH]; intros value res; simpl.
  - constructor.
  - destruct (func m v t) as [w|e] eqn:Hf.
    + intros H. constructor; [by exists w|]. by eapply IH.
    + by rewrite collect_trace_err.
Qed.

Lemma collect_trace_sound (tasks : list task) order (res : list Vec) :
  order ≡ₚ combine (seq 0 (length tasks)) tasks ->
  apply_all func tasks = Returns res ->
  collect_trace func order [] None = Returns res.
Proof.
  intros Hperm Hall%apply_all_Forall2.
  assert (Hfst : order.*1 ≡ₚ seq 0 (length tasks)).
  { rewrite Hperm. clear. generalize 0.
    induction tasks as [|t tasks IH]; intros a; simpl; [done|].
    by rewrite IH. }
  destruct (@collect_trace_ok res order []) as (final & H1 & H2 & H3 & H4).
  - constructor.
  - by intros ?? ?%elem_of_nil.
  - rewrite app_nil_r, Hfst. apply NoDup_seq.
  - intros i t Hin. rewrite Hperm in Hin.
    apply list_elem_of_lookup in Hin as [k Hk].
    assert (Hk1 : seq 0 (length tasks) !! k = Some i /\ tasks !! k = Some t).
    { clear -Hk. revert k Hk. generalize 0.
      induction tasks as [|t' tasks IH]; intros a [|k] Hk; simplify_eq/=; auto. }
    destruct Hk1 as [Hk1 Hk2]. apply lookup_seq in Hk1 as [-> _]. simpl.
    destruct (Forall2_lookup_l _ _ _ _ _ Hall Hk2) as (w & Hw1 & Hw2).
    by exists w.
  - rewrite H1. f_equal.
    rewrite app_nil_r, Hfst in H3.
    assert (Hidx : final.*1 = seq 0 (length tasks)).
    { apply (StronglySorted_unique_strong lt); [lia|done|apply seq_sorted|done]. }
    apply list_eq. intros k.
    destruct (final !! k) as [[j w]|] eqn:Hk.
    + assert (Hj : final.*1 !! k = Some j) by (by rewrite list_lookup_fmap, Hk).
      rewrite Hidx in Hj. apply lookup_seq in Hj as [-> _]. simpl.
      rewrite (H4 k w) by (by eapply list_elem_of_lookup_2).
      by rewrite map_fmap, list_lookup_fmap, Hk.
    + apply lookup_ge_None in Hk.
      assert (Hlen : length final = length res).
      { rewrite <- (length_fmap fst final), Hidx, length_seq.
        by eapply Forall2_length. }
      rewrite (proj2 (lookup_ge_None res k)) by lia.
      apply lookup_ge_None.
      assert (length (map snd final) = length final) by apply length_map.
      lia.
Qed.
End WithFunc.

(** ** Facts on the described runs *)

Lemma is_stop_true (e : exn E) : is_stop e = true -> e = StopIteration.
Proof. by destruct e. Qed.

Section TraceFacts.
Variable func : Matrix -> Vec -> Time -> result Vec.
Variable chain : Chain.
Variable dt : Time.
Variable matrix_func : option (Chain -> Rate -> Yield -> result Matrix).

Abbreviation ev := (builder_event (Vec:=Vec) (Time:=Time) matrix_func chain).
Abbreviation out := (builder_outcome matrix_func chain).
Abbreviation ev' :=
  (fun p : Rate * Yield =>
     builder_event (Vec:=Vec) (Time:=Time) matrix_func chain p.1 p.2).
Abbreviation rb := (raised_by func matrix_func).

Lemma builder_is_build r y : is_build (ev r y) = true.
Proof. unfold builder_event. by destruct matrix_func. Qed.

Lemma builder_is_func r y : is_func (ev r y) = false.
Proof. unfold builder_event. by destruct matrix_func. Qed.

Lemma builder_is_pool r y : is_pool (ev r y) = false.
Proof. unfold builder_event. by destruct matrix_func. Qed.

Lemma builder_raised_by r y : rb (ev r y) = exception_of (out r y).
Proof. unfold builder_event, builder_outcome. by destruct matrix_func. Qed.

Lemma first_raise_app (f : event -> option (exn E)) evs1 evs2 :
  first_raise f (evs1 ++ evs2) =
  match first_raise f evs1 with
  | Some e => Some e
  | None => first_raise f evs2
  end.
Proof. induction evs1 as [|e evs1 IH]; simpl; [done|]. by destruct (f e). Qed.

Lemma filter_builds ps : List.filter is_build (map ev' ps) = map ev' ps.
Proof.
  induction ps as [|[r y] ps IH]; simpl; [done|].
  by rewrite builder_is_build, IH.
Qed.

Lemma filter_funcs_builds ps : List.filter is_func (map ev' ps) = [].
Proof.
  induction ps as [|[r y] ps IH]; simpl; [done|].
  by rewrite builder_is_func, IH.
Qed.

Lemma filter_pool_builds ps : List.filter is_pool (map ev' ps) = [].
Proof.
  induction ps as [|[r y] ps IH]; simpl; [done|].
  by rewrite builder_is_pool, IH.
Qed.

Lemma filter_build_funcs (l : list (nat * task)) :
  List.filter is_build
    (map (fun it => func_event (Rate:=Rate) (Yield:=Yield) (E:=E) it.2) l) = [].
Proof. induction l as [|[i [[m v] t]] l IH]; simpl; by rewrite ?IH. Qed.

Lemma filter_pool_funcs (l : list (nat * task)) :
  List.filter is_pool
    (map (fun it => func_event (Rate:=Rate) (Yield:=Yield) (E:=E) it.2) l) = [].
Proof. induction l as [|[i [[m v] t]] l IH]; simpl; by rewrite ?IH. Qed.

Lemma filter_func_funcs (l : list (nat * task)) :
  List.filter is_func
    (map (fun it => func_event (Rate:=Rate) (Yield:=Yield) (E:=E) it.2) l) =
  map (fun it => func_event it.2) l.
Proof. induction l as [|[i [[m v] t]] l IH]; simpl; by rewrite ?IH. Qed.

(** The number [k] of builder calls against the number [n] of items that
    came out, among [total] pairs: either the pairs ran out, or one more
    matrix was asked for than items came out. *)
Lemma zip_trace_events ps : forall xs,
  exists k,
    (zip_trace ev out dt ps xs).1 = map ev' (take k ps) /\
    forall tasks, (zip_trace ev out dt ps xs).2 = Returns tasks ->
      (length tasks = length ps /\ k = length ps) \/
      (length tasks < length ps /\ k = S (length tasks)).
Proof.
  induction ps as [|[r y] ps IH]; intros xs; simpl.
  - exists 0. split; [done|]. intros tasks [= <-]. by left.
  - destruct (out r y) as [m|e].
    + destruct xs as [|v xs].
      { exists 1. split; [done|]. intros tasks [= <-]. right. simpl. lia. }
      destruct (IH xs) as (k & Hk & Hret).
      destruct (zip_trace ev out dt ps xs) as [evs [l|e]]; simpl in *;
        exists (S k); (split; [by rewrite Hk|]); [|done].
      intros tasks [= <-]. simpl. destruct (Hret l eq_refl); lia.
    + exists 1. split; [done|]. simpl.
      destruct (is_stop e); [|done]. intros tasks [= <-]. right. simpl. lia.
Qed.

Lemma zip_trace_Raises ps : forall xs e,
  (zip_trace ev out dt ps xs).2 = Raises e ->
  first_raise rb (zip_trace ev out dt ps xs).1 = Some e.
Proof.
  induction ps as [|[r y] ps IH]; intros xs e; simpl; [done|].
  destruct (out r y) as [m|e0] eqn:Hout.
  - destruct xs as [|v xs]; simpl; [done|].
    specialize (IH xs).
    destruct (zip_trace ev out dt ps xs) as [evs [l|e1]]; simpl in *; [done|].
    intros [= <-]. rewrite builder_raised_by, Hout. simpl. by apply IH.
  - simpl. destruct (is_stop e0); [done|].
    intros [= <-]. by rewrite builder_raised_by, Hout.
Qed.

Lemma zip_trace_Returns_raise ps : forall xs tasks,
  (zip_trace ev out dt ps xs).2 = Returns tasks ->
  first_raise rb (zip_trace ev out dt ps xs).1 = None \/
  first_raise rb (zip_trace ev out dt ps xs).1 = Some StopIteration.
Proof.
  induction ps as [|[r y] ps IH]; intros xs tasks; simpl; [by left|].
  destruct (out r y) as [m|e0] eqn:Hout.
  - destruct xs as [|v xs]; simpl.
    + intros _. left. by rewrite builder_raised_by, Hout.
    + specialize (IH xs).
      destruct (zip_trace ev out dt ps xs) as [evs [l|e1]]; simpl in *; [|done].
      intros _. rewrite builder_raised_by, Hout. simpl. by apply (IH l).
  - simpl. destruct (is_stop e0) eqn:Hs; [|done].
    intros _. right. rewrite builder_raised_by, Hout. simpl.
    by rewrite (is_stop_true _ Hs).
Qed.

Lemma zip_trace_tasks ps : forall xs tasks,
  (zip_trace ev out dt ps xs).2 = Returns tasks ->
  length tasks <= Nat.min (length ps) (length xs) /\
  forall i m v t, tasks !! i = Some (m, v, t) ->
    exists r y, ps !! i = Some (r, y) /\ out r y = Returns m /\
      xs !! i = Some v /\ t = dt.
Proof.
  induction ps as [|[r y] ps IH]; intros xs tasks; simpl.
  - intros [= <-]. split; [done|]. intros i ??? Hi. by rewrite lookup_nil in Hi.
  - destruct (out r y) as [m|e] eqn:Hout.
    + destruct xs as [|v xs]; simpl.
      * intros [= <-]. split; [simpl; lia|]. intros i ??? Hi.
        by rewrite lookup_nil in Hi.
      * specialize (IH xs).
        destruct (zip_trace ev out dt ps xs) as [evs [l|e]]; simpl in *;
          [|done].
        intros [= <-]. destruct (IH l eq_refl) as [Hlen Hpos].
        split; [simpl; lia|].
        intros [|i] m' v' t' Hi; simplify_eq/=;
          [by exists r, y|by apply Hpos].
    + simpl. destruct (is_stop e); [|done].
      intros [= <-]. split; [simpl; lia|]. intros i ??? Hi.
      by rewrite lookup_nil in Hi.
Qed.

Lemma zip_trace_length ps : forall xs tasks,
  (forall r y, out r y <> Raises StopIteration) ->
  (zip_trace ev out dt ps xs).2 = Returns tasks ->
  length tasks = Nat.min (length ps) (length xs).
Proof.
  intros xs tasks Hns. revert xs tasks.
  induction ps as [|[r y] ps IH]; intros xs tasks; simpl.
  - by intros [= <-].
  - specialize (Hns r y). destruct (out r y) as [m|e] eqn:Hout.
    + destruct xs as [|v xs]; simpl; [by intros [= <-]|].
      specialize (IH xs).
      destruct (zip_trace ev out dt ps xs) as [evs [l|e]]; simpl in *;
        [|done].
      intros [= <-]. simpl. by rewrite (IH l).
    + simpl. destruct (is_stop e) eqn:Hs; [|done].
      by rewrite (is_stop_true _ Hs) in Hns.
Qed.

Lemma zip_trace_total ps : forall xs,
  (forall r y, exception_of (out r y) = None) ->
  exists tasks, (zip_trace ev out dt ps xs).2 = Returns tasks.
Proof.
  intros xs Hout. revert xs.
  induction ps as [|[r y] ps IH]; intros xs; simpl; [by eexists|].
  specialize (Hout r y). destruct (out r y) as [m|e]; [|done].
  destruct xs as [|v xs]; [by eexists|].
  destruct (IH xs) as [tasks Ht].
  destruct (zip_trace ev out dt ps xs) as [evs [l|e]]; simpl in *; [|done].
  by eexists.
Qed.

Lemma apply_all_total (tasks : list task) :
  (forall m v t, exception_of (func m v t) = None) ->
  exists res, apply_all func tasks = Returns res.
Proof.
  intros Hf. induction tasks as [|[[m v] t] tasks [res IH]]; simpl;
    [by eexists|].
  specialize (Hf m v t). destruct (func m v t) as [w|e]; [|done].
  rewrite IH. by eexists.
Qed.

(** When [func] does not raise [StopIteration], the lazy run returns what
    applying [func] to every tuple of the list returns. *)
Lemma serial_trace_zip ps : forall xs res,
  (forall m v t, func m v t <> Raises StopIteration) ->
  (serial_trace ev out func dt ps xs).2 = Returns res <->
  exists tasks, (zip_trace ev out dt ps xs).2 = Returns tasks /\
    apply_all func tasks = Returns res.
Proof.
  intros xs res Hns. revert xs res.
  induction ps as [|[r y] ps IH]; intros xs res; simpl.
  - split; [intros [= <-]; by exists []|by intros (? & [= <-] & [= <-])].
  - destruct (out r y) as [m|e].
    2:{ simpl. destruct (is_stop e).
        - split; [intros [= <-]; by exists []|by intros (? & [= <-] & [= <-])].
        - split; [done|by intros (? & ? & ?)]. }
    destruct xs as [|v xs]; simpl.
    { split; [intros [= <-]; by exists []|by intros (? & [= <-] & [= <-])]. }
    specialize (IH xs). specialize (Hns m v dt).
    destruct (zip_trace ev out dt ps xs) as [evs [l|e]]; simpl in *.
    + destruct (func m v dt) as [w|e] eqn:Hf; simpl.
      * destruct (serial_trace ev out func dt ps xs) as [evs' [l'|e]];
          simpl in *.
        -- split.
           ++ intros [= <-]. exists ((m, v, dt) :: l). split; [done|].
              simpl. rewrite Hf.
              destruct (proj1 (IH l') eq_refl) as (? & [= <-] & ->). done.
           ++ intros (? & [= <-] & H). simpl in H. rewrite Hf in H.
              destruct (apply_all func l) as [ws|e] eqn:Ha; simplify_eq/=.
              assert (Returns l' = Returns ws) as [= <-]
                by (apply IH; by exists l).
              done.
        -- split; [done|]. intros (? & [= <-] & H). simpl in H.
           rewrite Hf in H.
           destruct (apply_all func l) as [ws|e'] eqn:Ha; simplify_eq/=.
           assert (@Raises E (list Vec) e = Returns ws) as [=]
             by (apply IH; by exists l).
      * destruct (is_stop e) eqn:Hs;
          [by rewrite (is_stop_true _ Hs) in Hns|].
        split; [done|]. intros (? & [= <-] & H). simpl in H.
        by rewrite Hf in H.
    + split; [|by intros (? & ? & ?)].
      destruct (func m v dt) as [w|e'] eqn:Hf; simpl.
      * destruct (serial_trace ev out func dt ps xs) as [evs' [l'|e'']];
          simpl in *; [|done].
        intros _. by destruct (proj1 (IH l') eq_refl) as (? & ? & ?).
      * destruct (is_stop e') eqn:Hs; [|done].
        by rewrite (is_stop_true _ Hs) in Hns.
Qed.

Lemma serial_trace_builds ps : forall xs,
  exists k,
    List.filter is_build (serial_trace ev out func dt ps xs).1 =
      map ev' (take k ps) /\
    forall res, (serial_trace ev out func dt ps xs).2 = Returns res ->
      (length res = length ps /\ k = length ps) \/
      (length res < length ps /\ k = S (length res)).
Proof.
  induction ps as [|[r y] ps IH]; intros xs; simpl.
  - exists 0. split; [done|]. intros res [= <-]. by left.
  - destruct (out r y) as [m|e].
    2:{ exists 1. simpl. rewrite builder_is_build. split; [done|].
        destruct (is_stop e); [|done]. intros res [= <-]. right. simpl. lia. }
    destruct xs as [|v xs].
    { exists 1. simpl. rewrite builder_is_build. split; [done|].
      intros res [= <-]. right. simpl. lia. }
    destruct (func m v dt) as [w|e].
    2:{ exists 1. simpl. rewrite builder_is_build. split; [done|].
        destruct (is_stop e); [|done]. intros res [= <-]. right. simpl. lia. }
    destruct (IH xs) as (k & Hk & Hret).
    destruct (serial_trace ev out func dt ps xs) as [evs [l|e]]; simpl in *;
      exists (S k); rewrite builder_is_build, Hk; (split; [done|]); [|done].
    intros res [= <-]. simpl. destruct (Hret l eq_refl); lia.
Qed.

Lemma serial_trace_others ps : forall xs,
  List.filter is_pool (serial_trace ev out func dt ps xs).1 = [] /\
  length (List.filter is_func (serial_trace ev out func dt ps xs).1)
    <= length xs.
Proof.
  induction ps as [|[r y] ps IH]; intros xs; simpl.
  - split; [done|lia].
  - destruct (out r y) as [m|e]; simpl;
      [|rewrite builder_is_pool, builder_is_func; split; [done|simpl; lia]].
    destruct xs as [|v xs]; simpl;
      [rewrite builder_is_pool, builder_is_func; split; [done|simpl; lia]|].
    destruct (func m v dt) as [w|e]; simpl;
      [|rewrite builder_is_pool, builder_is_func; split; [done|simpl; lia]].
    destruct (IH xs) as [H1 H2].
    destruct (serial_trace ev out func dt ps xs) as [evs [l|e]]; simpl in *;
      rewrite builder_is_pool, builder_is_func; split; try done; simpl; lia.
Qed.

Lemma serial_trace_Raises ps : forall xs e,
  (serial_trace ev out func dt ps xs).2 = Raises e ->
  first_raise rb (serial_trace ev out func dt ps xs).1 = Some e.
Proof.
  induction ps as [|[r y] ps IH]; intros xs e; simpl; [done|].
  destruct (out r y) as [m|e0] eqn:Hout; simpl.
  - destruct xs as [|v xs]; simpl; [done|].
    destruct (func m v dt) as [w|e0] eqn:Hf; simpl.
    + specialize (IH xs).
      destruct (serial_trace ev out func dt ps xs) as [evs [l|e1]];
        simpl in *; [done|].
      intros [= <-]. rewrite builder_raised_by, Hout, Hf. simpl. by apply IH.
    + destruct (is_stop e0); [done|].
      intros [= <-]. by rewrite builder_raised_by, Hout, Hf.
  - destruct (is_stop e0); [done|].
    intros [= <-]. by rewrite builder_raised_by, Hout.
Qed.

Lemma serial_trace_Returns_raise ps : forall xs res,
  (serial_trace ev out func dt ps xs).2 = Returns res ->
  first_raise rb (serial_trace ev out func dt ps xs).1 = None \/
  first_raise rb (serial_trace ev out func dt ps xs).1 = Some StopIteration.
Proof.
  induction ps as [|[r y] ps IH]; intros xs res; simpl; [by left|].
  destruct (out r y) as [m|e0] eqn:Hout; simpl.
  - destruct xs as [|v xs]; simpl.
    { intros _. left. by rewrite builder_raised_by, Hout. }
    destruct (func m v dt) as [w|e0] eqn:Hf; simpl.
    + specialize (IH xs).
      destruct (serial_trace ev out func dt ps xs) as [evs [l|e1]];
        simpl in *; [|done].
      intros _. rewrite builder_raised_by, Hout, Hf. simpl. by apply (IH l).
    + destruct (is_stop e0) eqn:Hs; [|done].
      intros _. right. rewrite builder_raised_by, Hout, Hf. simpl.
      by rewrite (is_stop_true _ Hs).
  - destruct (is_stop e0) eqn:Hs; [|done].
    intros _. right. rewrite builder_raised_by, Hout. simpl.
    by rewrite (is_stop_true _ Hs).
Qed.

Lemma serial_trace_interleaved ps : forall xs res,
  (serial_trace ev out func dt ps xs).2 = Returns res ->
  length res <= Nat.min (length ps) (length xs) /\
  forall i w, res !! i = Some w ->
    exists r y m v,
      ps !! i = Some (r, y) /\ out r y = Returns m /\ xs !! i = Some v /\
      func m v dt = Returns w /\
      (serial_trace ev out func dt ps xs).1 !! (2 * i) = Some (ev r y) /\
      (serial_trace ev out func dt ps xs).1 !! S (2 * i)
        = Some (EvFunc m v dt).
Proof.
  induction ps as [|[r y] ps IH]; intros xs res; simpl.
  - intros [= <-]. split; [done|]. intros i w Hi. by rewrite lookup_nil in Hi.
  - destruct (out r y) as [m|e] eqn:Hout.
    2:{ simpl. destruct (is_stop e); [|done]. intros [= <-].
        split; [simpl; lia|]. intros i w Hi. by rewrite lookup_nil in Hi. }
    destruct xs as [|v xs]; simpl.
    { intros [= <-]. split; [simpl; lia|]. intros i w Hi.
      by rewrite lookup_nil in Hi. }
    destruct (func m v dt) as [w0|e] eqn:Hf.
    2:{ simpl. destruct (is_stop e); [|done]. intros [= <-].
        split; [simpl; lia|]. intros i w Hi. by rewrite lookup_nil in Hi. }
    specialize (IH xs).
    destruct (serial_trace ev out func dt ps xs) as [evs [l|e]];
      simpl in *; [|done].
    intros [= <-]. destruct (IH l eq_refl) as [Hlen Hpos].
    split; [simpl; lia|].
    intros [|i] w Hi; simplify_eq/=.
    + by exists r, y, m, v.
    + destruct (Hpos i w Hi) as (r' & y' & m' & v' & ? & ? & ? & ? & H1 & H2).
      exists r', y', m', v'. split_and!; try done.
      * by replace (i + S (i + 0)) with (S (2 * i)) by lia.
      * by replace (i + S (i + 0)) with (S (2 * i)) by lia.
Qed.

Lemma serial_trace_length ps : forall xs res,
  (forall r y, out r y <> Raises StopIteration) ->
  (forall m v t, func m v t <> Raises StopIteration) ->
  (serial_trace ev out func dt ps xs).2 = Returns res ->
  length res = Nat.min (length ps) (length xs).
Proof.
  intros xs res Hnb Hnf. revert xs res.
  induction ps as [|[r y] ps IH]; intros xs res; simpl.
  - by intros [= <-].
  - specialize (Hnb r y). destruct (out r y) as [m|e] eqn:Hout.
    2:{ simpl. destruct (is_stop e) eqn:Hs; [|done].
        by rewrite (is_stop_true _ Hs) in Hnb. }
    destruct xs as [|v xs]; simpl; [by intros [= <-]|].
    specialize (Hnf m v dt). destruct (func m v dt) as [w0|e] eqn:Hf.
    2:{ simpl. destruct (is_stop e) eqn:Hs; [|done].
        by rewrite (is_stop_true _ Hs) in Hnf. }
    specialize (IH xs).
    destruct (serial_trace ev out func dt ps xs) as [evs [l|e]];
      simpl in *; [|done].
    intros [= <-]. simpl. by rewrite (IH l).
Qed.

Lemma serial_trace_raises_last ps : forall xs e,
  (serial_trace ev out func dt ps xs).2 = Raises e ->
  exists pre last,
    (serial_trace ev out func dt ps xs).1 = pre ++ [last] /\
    rb last = Some e /\ first_raise rb pre = None.
Proof.
  induction ps as [|[r y] ps IH]; intros xs e; simpl; [done|].
  destruct (out r y) as [m|e0] eqn:Hout; simpl.
  - destruct xs as [|v xs]; simpl; [done|].
    destruct (func m v dt) as [w|e0] eqn:Hf; simpl.
    + specialize (IH xs).
      destruct (serial_trace ev out func dt ps xs) as [evs [l|e0]];
        simpl in *; [done|].
      intros [= <-]. destruct (IH e0 eq_refl) as (pre & last & -> & Hl & Hp).
      exists (ev r y :: EvFunc m v dt :: pre), last.
      split_and!; [done..|]. simpl. by rewrite builder_raised_by, Hout, Hf.
    + destruct (is_stop e0); [done|].
      intros [= <-]. exists [ev r y], (EvFunc m v dt).
      split_and!; simpl; [done|by rewrite Hf|].
      by rewrite builder_raised_by, Hout.
  - destruct (is_stop e0); [done|].
    intros [= <-]. exists [], (ev r y).
    split_and!; [done| |done]. by rewrite builder_raised_by, Hout.
Qed.

Lemma serial_trace_result_ev (ev1 ev2 : Rate -> Yield -> event)
    (o : Rate -> Yield -> result Matrix) ps : forall xs,
  (serial_trace ev1 o func dt ps xs).2 = (serial_trace ev2 o func dt ps xs).2.
Proof.
  induction ps as [|[r y] ps IH]; intros xs; simpl; [done|].
  destruct (o r y) as [m|e]; [|done].
  destruct xs as [|v xs]; [done|].
  destruct (func m v dt) as [w|e]; [|done]. specialize (IH xs).
  destruct (serial_trace ev1 o func dt ps xs),
    (serial_trace ev2 o func dt ps xs).
  simpl in *. by subst.
Qed.

Lemma zip_trace_result_ev (ev1 ev2 : Rate -> Yield -> event)
    (o : Rate -> Yield -> result Matrix) ps : forall xs,
  (zip_trace ev1 o dt ps xs).2 = (zip_trace ev2 o dt ps xs).2.
Proof.
  induction ps as [|[r y] ps IH]; intros xs; simpl; [done|].
  destruct (o r y) as [m|e]; [|done].
  destruct xs as [|v xs]; [done|]. specialize (IH xs).
  destruct (zip_trace ev1 o dt ps xs), (zip_trace ev2 o dt ps xs).
  simpl in *. by subst.
Qed.

Lemma zip_trace_count ps xs :
  length (zip_trace ev out dt ps xs).1 <= Nat.min (length ps) (S (length xs)).
Proof.
  revert xs; induction ps as [|[r y] ps IH]; intros xs; simpl; [lia|].
  destruct (out r y) as [m|e]; simpl; [|lia].
  destruct xs as [|v xs]; simpl; [lia|].
  specialize (IH xs).
  destruct (zip_trace ev out dt ps xs) as [evs res]; simpl in *. lia.
Qed.

Lemma serial_trace_count ps xs :
  length (List.filter is_build (serial_trace ev out func dt ps xs).1)
    <= Nat.min (length ps) (S (length xs)).
Proof.
  revert xs; induction ps as [|[r y] ps IH]; intros xs; simpl; [lia|].
  destruct (out r y) as [m|e]; simpl;
    [|rewrite builder_is_build; simpl; lia].
  destruct xs as [|v xs]; simpl; [rewrite builder_is_build; simpl; lia|].
  destruct (func m v dt) as [w|e]; simpl;
    [|rewrite builder_is_build; simpl; lia].
  specialize (IH xs).
  destruct (serial_trace ev out func dt ps xs) as [evs res]; simpl in *.
  rewrite builder_is_build. simpl. lia.
Qed.

Lemma collect_trace_first_raise order : forall value,
  first_raise rb (map (fun it : nat * task => func_event it.2) order) =
  exception_of (collect_trace func order value None).
Proof.
  induction order as [|[i [[m v] t]] rest IH]; intros value; simpl; [done|].
  destruct (func m v t) as [w|e]; simpl; [done|].
  by rewrite collect_trace_err.
Qed.

Lemma drain_starmap_list (tasks : list task) : forall fuel s,
  length tasks < fuel ->
  exists k,
    drain fuel (it_starmap (call_func func) (it_list tasks)) s =
      (emit (map (func_event (Rate:=Rate) (Yield:=Yield) (E:=E))
               (take k tasks)) s,
       starmap_results func tasks) /\
    k <= length tasks /\
    (forall results, apply_all func tasks = Returns results ->
       k = length tasks).
Proof.
  induction tasks as [|[[m v] t] tasks IH]; intros [|fuel] s Hfuel;
    simpl in Hfuel; try lia.
  - exists 0. split_and!; [|done..]. simpl. rewrite !bind_run. simpl.
    by rewrite emit_nil.
  - destruct (IH fuel (emit [EvFunc m v t] s)) as (k & Hk & Hle & Hret); [lia|].
    simpl. rewrite !bind_run. simpl. rewrite bind_run, catch_stop_run.
    unfold call_func at 1. rewrite bind_run. simpl.
    destruct (func m v t) as [w|e]; simpl.
    + exists (S k). rewrite bind_run, Hk, emit_emit.
      split_and!; [|lia|].
      * by destruct (starmap_results func tasks).
      * destruct (apply_all func tasks) as [l|e]; simpl; [|done].
        intros res _. by rewrite (Hret l).
    + exists 1. split_and!; [|lia|done].
      by destruct (is_stop e).
Qed.
End TraceFacts.

(** ** The runs of the method, described *)

Section RunFacts.
Variable func : Matrix -> Vec -> Time -> result Vec.
Variable chain : Chain.
Variable x : list Vec.
Variable rates : list Rate.
Variable dt : Time.
Variable matrix_func : option (Chain -> Rate -> Yield -> result Matrix).

Abbreviation ev := (builder_event (Vec:=Vec) (Time:=Time) matrix_func chain).
Abbreviation ev' :=
  (fun p : Rate * Yield =>
     builder_event (Vec:=Vec) (Time:=Time) matrix_func chain p.1 p.2).
Abbreviation out := (builder_outcome matrix_func chain).
Abbreviation ps := (paired rates (fission_yields chain)).
Abbreviation run := (DepletionDispatcher_deplete func chain x rates dt matrix_func).
Abbreviation rt := (run_trace func chain x rates dt matrix_func).
Abbreviation zt := (zip_trace ev out dt ps x).

Lemma deplete_run s :
  table_ok (fission_yields chain) x = true ->
  this (run s).1 = this s /\
  log (run s).1 =
    log s ++ EvEnter (_pool_class (this s)) :: (rt s).1
      ++ [EvExit (_pool_class (this s))] /\
  (run s).2 = (rt s).2.
Proof.
  intros Hok. destruct (deplete_resolved func chain x rates dt matrix_func Hok)
    as (it & Hg & ->).
  unfold run_trace. destruct (_pool_class (this s)) eqn:Hcls.
  - rewrite (dispatch_Pool func x rates dt s Hg Hcls).
    destruct (zip_trace ev out dt ps x) as [evs [tasks|e]]; simpl.
    + by rewrite <- !app_assoc.
    + done.
  - by rewrite (dispatch_PoolShim func x rates dt s Hg Hcls).
Qed.

Lemma deplete_new_events s :
  table_ok (fission_yields chain) x = true ->
  new_events s (run s).1 =
  EvEnter (_pool_class (this s)) :: (rt s).1 ++ [EvExit (_pool_class (this s))].
Proof.
  intros Hok. destruct (deplete_run s Hok) as (_ & Hlog & _).
  unfold new_events. by rewrite Hlog, drop_app_length.
Qed.

Lemma deplete_invalid_events s :
  table_ok (fission_yields chain) x = false -> new_events s (run s).1 = [].
Proof.
  intros Hbad. rewrite (deplete_invalid func chain x rates dt matrix_func s Hbad).
  unfold new_events. simpl. by rewrite drop_all.
Qed.

Lemma run_trace_returns_Pool s res :
  _pool_class (this s) = Pool ->
  (rt s).2 = Returns res <->
  exists tasks, zt.2 = Returns tasks /\ apply_all func tasks = Returns res.
Proof.
  intros Hcls. unfold run_trace. rewrite Hcls.
  destruct (zip_trace ev out dt ps x) as [evs [tasks|e]]; simpl.
  - assert (Hperm : completing s tasks ≡ₚ combine (seq 0 (length tasks)) tasks)
      by apply completion_order_perm.
    split.
    + intros Hc. exists tasks. split; [done|].
      pose proof (collect_trace_Returns_inv func _ _ Hc) as Hall.
      rewrite Hperm in Hall.
      assert (exists res', apply_all func tasks = Returns res') as [res' Hres'].
      { clear -Hall. revert Hall. generalize 0.
        induction tasks as [|[[m v] t] tasks IH]; intros a; simpl;
          [by eexists|].
        intros [[w Hw] Hall]%Forall_cons. simpl in Hw. rewrite Hw.
        destruct (IH _ Hall) as [res' ->]. by eexists. }
      rewrite (collect_trace_sound func tasks Hperm Hres') in Hc. congruence.
    + intros (? & [= <-] & Ha). by apply (collect_trace_sound func tasks).
  - split; [done|by intros (? & ? & ?)].
Qed.

Lemma run_trace_returns s res :
  (forall m v t, func m v t <> Raises StopIteration) ->
  (rt s).2 = Returns res <->
  exists tasks, zt.2 = Returns tasks /\ apply_all func tasks = Returns res.
Proof.
  intros Hns. destruct (_pool_class (this s)) eqn:Hcls.
  - by apply run_trace_returns_Pool.
  - unfold run_trace. rewrite Hcls. by apply serial_trace_zip.
Qed.

Lemma run_trace_builds s :
  exists k,
    List.filter is_build (rt s).1 = map ev' (take k ps) /\
    forall res, (rt s).2 = Returns res ->
      (length res = length ps /\ k = length ps) \/
      (length res < length ps /\ k = S (length res)).
Proof.
  destruct (_pool_class (this s)) eqn:Hcls.
  - destruct (zip_trace_events chain dt matrix_func ps x) as (k & Hk & Hret).
    exists k. split.
    + unfold run_trace. rewrite Hcls.
      destruct (zip_trace ev out dt ps x) as [evs [tasks|e]];
        simpl in *; subst evs.
      * by rewrite List.filter_app, filter_builds, filter_build_funcs,
          app_nil_r.
      * by rewrite filter_builds.
    + intros res (tasks & Hz & Ha)%run_trace_returns_Pool; [|done].
      apply apply_all_Forall2, Forall2_length in Ha. rewrite <- Ha.
      by apply Hret.
  - unfold run_trace. rewrite Hcls. apply serial_trace_builds.
Qed.

Lemma run_trace_Raises s e :
  first_raise (raised_by func matrix_func) (rt s).1 = Some e ->
  is_stop e = false ->
  (rt s).2 = Raises e.
Proof.
  unfold run_trace. destruct (_pool_class (this s)).
  - pose proof (zip_trace_Raises func chain dt matrix_func ps x) as Hr.
    pose proof (zip_trace_Returns_raise func chain dt matrix_func ps x) as Ht.
    destruct (zip_trace ev out dt ps x) as [evs [tasks|e']]; simpl in *.
    + rewrite first_raise_app.
      destruct (Ht tasks eq_refl) as [->| ->].
      * rewrite (collect_trace_first_raise func matrix_func _ []).
        destruct (collect_trace _ _ _ _); simpl; congruence.
      * by intros [= <-].
    + rewrite (Hr e' eq_refl). congruence.
  - pose proof (serial_trace_Raises func chain dt matrix_func ps x) as Hr.
    pose proof (serial_trace_Returns_raise func chain dt matrix_func ps x) as Ht.
    destruct (serial_trace ev out func dt ps x) as [evs [res|e']]; simpl in *.
    + destruct (Ht res eq_refl) as [->| ->]; [done|by intros [= <-]].
    + rewrite (Hr e' eq_refl). congruence.
Qed.

Lemma run_trace_others s :
  List.filter is_pool (rt s).1 = [] /\
  length (List.filter is_func (rt s).1) <= length x.
Proof.
  unfold run_trace. destruct (_pool_class (this s)).
  - destruct (zip_trace_events chain dt matrix_func ps x) as (k & Hk & _).
    pose proof (zip_trace_tasks chain dt matrix_func ps x) as Ht.
    destruct (zip_trace ev out dt ps x) as [evs [tasks|e]];
      simpl in *; subst evs.
    + rewrite !List.filter_app, filter_pool_builds, filter_pool_funcs.
      rewrite filter_funcs_builds, filter_func_funcs.
      split; [done|]. simpl. rewrite length_map.
      unfold completing. rewrite completion_order_perm.
      rewrite length_combine, length_seq.
      destruct (Ht tasks eq_refl) as [? _]. lia.
    + rewrite filter_pool_builds, filter_funcs_builds. split; [done|simpl; lia].
  - apply serial_trace_others.
Qed.

Lemma run_trace_results s res :
  (rt s).2 = Returns res ->
  length res <= Nat.min (length ps) (length x) /\
  forall i w, res !! i = Some w ->
    exists r y m v,
      ps !! i = Some (r, y) /\ out r y = Returns m /\
      x !! i = Some v /\ func m v dt = Returns w.
Proof.
  destruct (_pool_class (this s)) eqn:Hcls.
  - intros (tasks & Hz & Ha)%run_trace_returns_Pool; [|done].
    apply zip_trace_tasks in Hz as [Hlen Hpos].
    apply apply_all_Forall2 in Ha.
    split.
    + by rewrite <- (Forall2_length _ _ _ Ha).
    + intros i w Hi.
      destruct (Forall2_lookup_r _ _ _ _ _ Ha Hi) as ([[m v] t] & Ht & Hw).
      destruct (Hpos i m v t Ht) as (r & y & Hp & Hm & Hv & ->).
      by exists r, y, m, v.
  - unfold run_trace. rewrite Hcls. intros Hres.
    destruct (serial_trace_interleaved func chain dt matrix_func _ _ Hres)
      as [Hlen Hpos].
    split; [done|]. intros i w Hi.
    destruct (Hpos i w Hi) as (r & y & m & v & ? & ? & ? & ? & _).
    by exists r, y, m, v.
Qed.

Lemma run_trace_length s res :
  (forall r y, out r y <> Raises StopIteration) ->
  (forall m v t, func m v t <> Raises StopIteration) ->
  (rt s).2 = Returns res ->
  length res = Nat.min (length ps) (length x).
Proof.
  intros Hnb Hnf. destruct (_pool_class (this s)) eqn:Hcls.
  - intros (tasks & Hz & Ha)%run_trace_returns_Pool; [|done].
    apply apply_all_Forall2, Forall2_length in Ha. rewrite <- Ha.
    by eapply zip_trace_length.
  - unfold run_trace. rewrite Hcls. by apply serial_trace_length.
Qed.

Lemma table_ok_length : length (fission_yields chain) = length x ->
  table_ok (fission_yields chain) x = true.
Proof.
  intros Hlen. unfold table_ok. rewrite (proj2 (Nat.eqb_eq _ _) Hlen).
  apply orb_true_r.
Qed.

Lemma table_ok_false :
  length (fission_yields chain) <> 1 ->
  length (fission_yields chain) <> length x ->
  table_ok (fission_yields chain) x = false.
Proof.
  intros H1 H2. unfold table_ok.
  by rewrite (proj2 (Nat.eqb_neq _ _) H1), (proj2 (Nat.eqb_neq _ _) H2).
Qed.

Lemma paired_length :
  table_ok (fission_yields chain) x = true ->
  Nat.min (length ps) (length x) = Nat.min (length rates) (length x).
Proof.
  unfold table_ok. rewrite orb_true_iff, !Nat.eqb_eq. unfold paired.
  destruct (fission_yields chain) as [|y [|y' ys]]; cbn [length];
    intros [H|H]; rewrite ?length_combine, ?length_map; cbn [length] in *; lia.
Qed.

Lemma paired_length_le :
  table_ok (fission_yields chain) x = true ->
  length (fission_yields chain) <> 1 ->
  length ps = Nat.min (length rates) (length x).
Proof.
  unfold table_ok. rewrite orb_true_iff, !Nat.eqb_eq. unfold paired.
  destruct (fission_yields chain) as [|y [|y' ys]]; cbn [length];
    intros [H|H] ?; rewrite ?length_combine, ?length_map; cbn [length] in *;
    lia.
Qed.

Lemma paired_lookup i r y :
  length (fission_yields chain) <> 1 ->
  ps !! i = Some (r, y) ->
  rates !! i = Some r /\ fission_yields chain !! i = Some y.
Proof.
  unfold paired. intros Hlen.
  assert (forall (l : list Rate) (k : list Yield) j,
            combine l k !! j = Some (r, y) ->
            l !! j = Some r /\ k !! j = Some y) as Hcomb.
  { induction l as [|a l IH]; intros [|b k] [|j] Hj; simplify_eq/=; auto. }
  destruct (fission_yields chain) as [|y0 [|y' ys]]; [apply Hcomb|done|apply Hcomb].
Qed.

Lemma deplete_log s :
  this (run s).1 = this s /\
  log (run s).1 = log s ++ new_events s (run s).1.
Proof.
  destruct (table_ok (fission_yields chain) x) eqn:Hok.
  - rewrite (deplete_new_events s Hok).
    by destruct (deplete_run s Hok) as (? & ? & _).
  - rewrite (deplete_invalid_events s Hok).
    rewrite (deplete_invalid func chain x rates dt matrix_func s Hok).
    simpl. by rewrite app_nil_r.
Qed.

Lemma deplete_Returns_ok s res :
  (run s).2 = Returns res -> table_ok (fission_yields chain) x = true.
Proof.
  destruct (table_ok (fission_yields chain) x) eqn:Hok; [done|].
  by rewrite (deplete_invalid func chain x rates dt matrix_func s Hok).
Qed.

Lemma deplete_builder_calls s :
  exists k,
    builder_calls s (run s).1 = map ev' (take k ps) /\
    forall res, (run s).2 = Returns res ->
      (length res = length ps /\ k = length ps) \/
      (length res < length ps /\ k = S (length res)).
Proof.
  unfold builder_calls.
  destruct (table_ok (fission_yields chain) x) eqn:Hok.
  - rewrite (deplete_new_events s Hok).
    destruct (deplete_run s Hok) as (_ & _ & ->).
    destruct (run_trace_builds s) as (k & Hk & Hret).
    exists k. split; [|done]. simpl.
    by rewrite List.filter_app, Hk, app_nil_r.
  - rewrite (deplete_invalid_events s Hok).
    rewrite (deplete_invalid func chain x rates dt matrix_func s Hok).
    exists 0. by rewrite take_0.
Qed.

(** Each result of a call that returns has its builder call at its own
    position among the builder calls. *)
Lemma deplete_builder_lookup s res i :
  (run s).2 = Returns res -> i < length res ->
  exists p, ps !! i = Some p /\ builder_calls s (run s).1 !! i = Some (ev' p).
Proof.
  intros Hres Hi. destruct (deplete_builder_calls s) as (k & Hk & Hret).
  assert (Hik : i < k /\ i < length ps) by (destruct (Hret res Hres); lia).
  destruct (lookup_lt_is_Some_2 ps i) as [p Hp]; [lia|].
  exists p. split; [done|].
  rewrite Hk, map_fmap, list_lookup_fmap, lookup_take_lt by lia.
  by rewrite Hp.
Qed.

Lemma deplete_Returns_Pool s res :
  _pool_class (this s) = Pool ->
  (run s).2 = Returns res <->
  table_ok (fission_yields chain) x = true /\
  exists tasks, zt.2 = Returns tasks /\ apply_all func tasks = Returns res.
Proof.
  intros Hcls. destruct (table_ok (fission_yields chain) x) eqn:Hok.
  - destruct (deplete_run s Hok) as (_ & _ & ->).
    rewrite run_trace_returns_Pool by done. tauto.
  - rewrite (deplete_invalid func chain x rates dt matrix_func s Hok). simpl.
    split; [done|by intros [? _]].
Qed.

Lemma deplete_Returns s res :
  (forall m v t, func m v t <> Raises StopIteration) ->
  (run s).2 = Returns res <->
  table_ok (fission_yields chain) x = true /\
  exists tasks, zt.2 = Returns tasks /\ apply_all func tasks = Returns res.
Proof.
  intros Hns. destruct (table_ok (fission_yields chain) x) eqn:Hok.
  - destruct (deplete_run s Hok) as (_ & _ & ->).
    rewrite run_trace_returns by done. tauto.
  - rewrite (deplete_invalid func chain x rates dt matrix_func s Hok). simpl.
    split; [done|by intros [? _]].
Qed.

Lemma deplete_results s res :
  (run s).2 = Returns res ->
  length res <= Nat.min (length rates) (length x) /\
  forall i w, res !! i = Some w ->
    exists r y m v,
      ps !! i = Some (r, y) /\ out r y = Returns m /\
      x !! i = Some v /\ func m v dt = Returns w.
Proof.
  intros Hres. pose proof (deplete_Returns_ok s Hres) as Hok.
  destruct (deplete_run s Hok) as (_ & _ & Hout). rewrite Hout in Hres.
  destruct (run_trace_results s Hres) as [Hlen Hpos].
  split; [|done]. by rewrite <- (paired_length Hok).
Qed.

Lemma deplete_results_length s res :
  (forall r y, out r y <> Raises StopIteration) ->
  (forall m v t, func m v t <> Raises StopIteration) ->
  (run s).2 = Returns res ->
  length res = Nat.min (length rates) (length x).
Proof.
  intros Hnb Hnf Hres. pose proof (deplete_Returns_ok s Hres) as Hok.
  destruct (deplete_run s Hok) as (_ & _ & Hout). rewrite Hout in Hres.
  rewrite <- (paired_length Hok). by apply (run_trace_length s).
Qed.

Lemma exception_of_no_stop {A} (r : result A) :
  exception_of r = None -> r <> Raises StopIteration.
Proof. by destruct r. Qed.

Lemma deplete_total s :
  table_ok (fission_yields chain) x = true ->
  (forall r y, exception_of (out r y) = None) ->
  (forall m v t, exception_of (func m v t) = None) ->
  exists res, (run s).2 = Returns res.
Proof.
  intros Hok Hout Hfunc.
  destruct (zip_trace_total chain dt matrix_func ps x Hout) as [tasks Ht].
  destruct (apply_all_total func tasks Hfunc) as [res Hres].
  exists res. apply deplete_Returns.
  - intros m v t. apply exception_of_no_stop, Hfunc.
  - split; [done|]. by exists tasks.
Qed.

Lemma deplete_Raises s e :
  first_raise (raised_by func matrix_func) (new_events s (run s).1) = Some e ->
  is_stop e = false ->
  (run s).2 = Raises e.
Proof.
  destruct (table_ok (fission_yields chain) x) eqn:Hok.
  - rewrite (deplete_new_events s Hok).
    destruct (deplete_run s Hok) as (_ & _ & ->).
    simpl. rewrite first_raise_app.
    destruct (first_raise _ (rt s).1) as [e'|] eqn:Hfr; simpl; [|done].
    intros [= <-]. by apply run_trace_Raises.
  - by rewrite (deplete_invalid_events s Hok).
Qed.

Lemma deplete_pool_events s e :
  e ∈ new_events s (run s).1 -> is_pool e = true ->
  e = EvEnter (_pool_class (this s)) \/ e = EvExit (_pool_class (this s)).
Proof.
  destruct (table_ok (fission_yields chain) x) eqn:Hok.
  - rewrite (deplete_new_events s Hok).
    destruct (run_trace_others s) as [Hp _].
    rewrite elem_of_cons, elem_of_app, list_elem_of_singleton.
    intros [?|[Hin|?]] He; [by left| |by right].
    apply list_elem_of_In in Hin.
    assert (In e (List.filter is_pool (rt s).1)) as Hin'
      by (by apply List.filter_In).
    by rewrite Hp in Hin'.
  - rewrite (deplete_invalid_events s Hok). by intros ?%elem_of_nil.
Qed.
End RunFacts.

(** ** The calls of [func] in a run *)

Section FuncCalls.
Variable func : Matrix -> Vec -> Time -> result Vec.
Variable chain : Chain.
Variable dt : Time.
Variable matrix_func : option (Chain -> Rate -> Yield -> result Matrix).

Abbreviation ev := (builder_event (Vec:=Vec) (Time:=Time) matrix_func chain).
Abbreviation out := (builder_outcome matrix_func chain).
Abbreviation fev := (func_event (Rate:=Rate) (Yield:=Yield) (E:=E)).

(** The serial shim calls [func] on the tuples of the leading materials,
    in order, once each. *)
Lemma serial_trace_funcs ps : forall xs,
  exists done : list task,
    List.filter is_func (serial_trace ev out func dt ps xs).1 = map fev done /\
    forall i m v t, done !! i = Some (m, v, t) ->
      exists r y, ps !! i = Some (r, y) /\ out r y = Returns m /\
        xs !! i = Some v /\ t = dt.
Proof.
  induction ps as [|[r y] ps IH]; intros xs; simpl.
  - exists []. split; [done|]. intros i ??? Hi. by rewrite lookup_nil in Hi.
  - destruct (out r y) as [m|e] eqn:Hout; simpl.
    + destruct xs as [|v xs]; simpl.
      * exists []. rewrite builder_is_func. split; [done|].
        intros i ??? Hi. by rewrite lookup_nil in Hi.
      * destruct (func m v dt) as [w|e]; simpl.
        -- destruct (IH xs) as (done & Hd & Hpos).
           destruct (serial_trace ev out func dt ps xs) as [evs res];
             simpl in *.
           exists ((m, v, dt) :: done). rewrite builder_is_func. simpl.
           split; [by rewrite Hd|].
           intros [|i] m' v' t' Hi; simplify_eq/=.
           ++ by exists r, y.
           ++ by apply Hpos.
        -- exists [(m, v, dt)]. rewrite builder_is_func. split; [done|].
           intros [|i] m' v' t' Hi; simplify_eq/=. by exists r, y.
    + exists []. rewrite builder_is_func. split; [done|].
      intros i ??? Hi. by rewrite lookup_nil in Hi.
Qed.

(** In the order of its choosing, each executor calls [func] once on each
    tuple of a list of tuples of the leading materials, and on nothing
    else. *)
Lemma run_trace_funcs x rates s :
  exists done : list task,
    List.filter is_func (run_trace func chain x rates dt matrix_func s).1
      ≡ₚ map fev done /\
    forall i m v t, done !! i = Some (m, v, t) ->
      exists r y, paired rates (fission_yields chain) !! i = Some (r, y) /\
        out r y = Returns m /\ x !! i = Some v /\ t = dt.
Proof.
  unfold run_trace. destruct (_pool_class (this s)).
  - destruct (zip_trace_events chain dt matrix_func
                (paired rates (fission_yields chain)) x) as (k & Hk & _).
    pose proof (zip_trace_tasks chain dt matrix_func
                  (paired rates (fission_yields chain)) x) as Ht.
    destruct (zip_trace ev out dt _ x) as [evs [tasks|e]];
      simpl in *; subst evs.
    + exists tasks. destruct (Ht tasks eq_refl) as [_ Hpos].
      split; [|done].
      rewrite List.filter_app, filter_funcs_builds, filter_func_funcs.
      simpl. unfold completing.
      rewrite <- (List.map_map snd fev), !map_fmap.
      rewrite completion_order_perm.
      assert (forall (l : list task) a,
                snd <$> combine (seq a (length l)) l = l) as ->; [|done].
      intros l. induction l as [|t l IHl]; intros a; simpl; [done|].
      by rewrite IHl.
    + exists []. rewrite filter_funcs_builds. split; [done|].
      intros i ??? Hi. by rewrite lookup_nil in Hi.
  - destruct (serial_trace_funcs (paired rates (fission_yields chain)) x)
      as (done & Hd & Hpos).
    exists done. by rewrite Hd.
Qed.
End FuncCalls.

Lemma is_stop_false (e : exn E) : e <> StopIteration -> is_stop e = false.
Proof. by destruct e. Qed.

(** * The claims *)

Section Claims.
Variable func : Matrix -> Vec -> Time -> result Vec.
Variable chain : Chain.
Variable x : list Vec.
Variable rates : list Rate.
Variable dt : Time.
Variable matrix_func : option (Chain -> Rate -> Yield -> result Matrix).

Abbreviation run := (DepletionDispatcher_deplete func chain x rates dt matrix_func).

(** C2. When the table of fission yields has neither one entry nor as many
    entries as there are atom vectors, [deplete] raises [ValueError] in the
    state it was called in: nothing was logged, so the matrix builder was
    not called for any material and no executor was acquired. *)
Theorem deplete_rejects_table_before_any_call s :
  length (fission_yields chain) <> 1 ->
  length (fission_yields chain) <> length x ->
  run s =
    (s, Raises (ValueError
          (mismatch_message (length (fission_yields chain)) (length x)))) /\
  new_events s (run s).1 = [].
Proof.
  intros H1 H2. pose proof (table_ok_false chain x H1 H2) as Hbad.
  split.
  - by apply deplete_invalid.
  - by apply deplete_invalid_events.
Qed.


(** C4. With a table of as many entries as there are atom vectors, and not
    exactly one, the builder call for material [i] receives the entry [i]
    of the table, together with the element [i] of [rates]: no builder call
    is made otherwise, every result of a call that returns comes from such
    a call, and when no collaborator raises the call returns having made
    exactly one such call for each material that has a rate and an atom
    vector. *)
Theorem yields_paired_by_position s :
  length (fission_yields chain) = length x ->
  length (fission_yields chain) <> 1 ->
  (forall i b, builder_calls s (run s).1 !! i = Some b ->
     exists r y, rates !! i = Some r /\ fission_yields chain !! i = Some y /\
       b = builder_event matrix_func chain r y) /\
  (forall res, (run s).2 = Returns res ->
     forall i, i < length res ->
       exists r y, rates !! i = Some r /\ fission_yields chain !! i = Some y /\
         builder_calls s (run s).1 !! i
           = Some (builder_event matrix_func chain r y)) /\
  ((forall r y, exception_of (builder_outcome matrix_func chain r y) = None) ->
   (forall m v t, exception_of (func m v t) = None) ->
   exists res, (run s).2 = Returns res /\
     length res = Nat.min (length rates) (length x) /\
     length (builder_calls s (run s).1) = Nat.min (length rates) (length x)).
Proof.
  intros Hlen Hne.
  destruct (deplete_builder_calls func chain x rates dt matrix_func s)
    as (k & Hk & Hret).
  pose proof (table_ok_length chain x Hlen) as Hok.
  pose proof (paired_length_le chain x rates Hok Hne) as Hpl.
  split_and!.
  - intros i b. rewrite Hk, map_fmap, list_lookup_fmap.
    destruct (take k _ !! i) as [[r y]|] eqn:Hi; [|done].
    intros [= <-]. apply lookup_take_Some in Hi as [Hi _].
    destruct (paired_lookup chain rates i Hne Hi) as [Hr Hy].
    by exists r, y.
  - intros res Hres i Hi.
    destruct (deplete_builder_lookup func chain x rates dt matrix_func s Hres Hi)
      as ([r y] & Hp & Hc).
    destruct (paired_lookup chain rates i Hne Hp) as [Hr Hy].
    by exists r, y.
  - intros Hout Hfunc.
    destruct (deplete_total func chain x rates dt matrix_func s Hok Hout Hfunc)
      as [res Hres].
    assert (Hlres : length res = Nat.min (length rates) (length x)).
    { apply (deplete_results_length func chain x rates dt matrix_func s);
        [intros r y; apply exception_of_no_stop, Hout
        |intros m v t; apply exception_of_no_stop, Hfunc|done]. }
    exists res. split_and!; [done..|].
    rewrite Hk, length_map, length_take.
    destruct (Hret res Hres); lia.
Qed.

(** C5. A call that returns, with either executor, returns its results in
    the order of the inputs: the result at position [i] is [func] applied
    to the matrix built for material [i], to [x[i]] and to [dt].  There is
    at most one result for each material that has an element of [rates]
    and an atom vector, and exactly one when no collaborator raises
    [StopIteration]; and with a table that passes the check and
    collaborators that do not raise, the call does return. *)
Theorem results_follow_input_order s :
  (forall res, (run s).2 = Returns res ->
     length res <= Nat.min (length rates) (length x) /\
     ((forall r y,
         builder_outcome matrix_func chain r y <> Raises StopIteration) ->
      (forall m v t, func m v t <> Raises StopIteration) ->
      length res = Nat.min (length rates) (length x)) /\
     forall i w, res !! i = Some w ->
       exists r y m v,
         paired rates (fission_yields chain) !! i = Some (r, y) /\
         builder_outcome matrix_func chain r y = Returns m /\
         x !! i = Some v /\
         func m v dt = Returns w) /\
  (table_ok (fission_yields chain) x = true ->
   (forall r y, exception_of (builder_outcome matrix_func chain r y) = None) ->
   (forall m v t, exception_of (func m v t) = None) ->
   exists res, (run s).2 = Returns res /\
     length res = Nat.min (length rates) (length x)).
Proof.
  split.
  - intros res Hres.
    destruct (deplete_results func chain x rates dt matrix_func s Hres)
      as [Hlen Hpos].
    split_and!; [done| |done].
    intros Hnb Hnf.
    by apply (deplete_results_length func chain x rates dt matrix_func s).
  - intros Hok Hout Hfunc.
    destruct (deplete_total func chain x rates dt matrix_func s Hok Hout Hfunc)
      as [res Hres].
    exists res. split; [done|].
    apply (deplete_results_length func chain x rates dt matrix_func s);
      [intros r y; apply exception_of_no_stop, Hout
      |intros m v t; apply exception_of_no_stop, Hfunc|done].
Qed.

(** C6, as amended.  For a [func] that does not raise [StopIteration], a
    dispatcher built with [use_multiprocessing=True] and one built with
    [use_multiprocessing=False] return the same list of results on the
    same inputs: whenever one of the two returns, the other returns the
    same list, whatever the order in which the processes complete. *)
Theorem serial_parallel_agree s_parallel s_serial res :
  (forall m v t, func m v t <> Raises StopIteration) ->
  this s_parallel = DepletionDispatcher_init (PyBool true) ->
  this s_serial = DepletionDispatcher_init (PyBool false) ->
  (run s_parallel).2 = Returns res <-> (run s_serial).2 = Returns res.
Proof. intros Hns _ _. by rewrite !deplete_Returns. Qed.

(** C7, as amended.  When a call of the matrix builder or of [func]
    raises, [e] being the first exception raised and not [StopIteration],
    [deplete] raises [e] itself and returns no result; the executor was
    acquired once before the calls and released once after them, the
    release being the last thing done; the builder was called once for
    each of the leading elements of [rates], in order, and [func] once on
    each tuple of a list of tuples of the leading materials, each made of
    the matrix built for its material, its atom vector and [dt]: no call
    was repeated. *)
Theorem exception_leaves_after_release s e :
  first_raise (raised_by func matrix_func) (new_events s (run s).1) = Some e ->
  e <> StopIteration ->
  (run s).2 = Raises e /\
  exists calls,
    new_events s (run s).1 =
      EvEnter (_pool_class (this s)) :: calls
        ++ [EvExit (_pool_class (this s))] /\
    List.filter is_pool calls = [] /\
    (exists k, List.filter is_build calls =
       map (fun p => builder_event matrix_func chain p.1 p.2)
         (take k (paired rates (fission_yields chain)))) /\
    (exists done : list task,
       List.filter is_func calls ≡ₚ map func_event done /\
       forall i m v t, done !! i = Some (m, v, t) ->
         exists r y,
           paired rates (fission_yields chain) !! i = Some (r, y) /\
           builder_outcome matrix_func chain r y = Returns m /\
           x !! i = Some v /\ t = dt) /\
    length (List.filter is_func calls) <= length x.
Proof.
  intros He Hns. split.
  - by apply deplete_Raises; [|apply is_stop_false].
  - destruct (table_ok (fission_yields chain) x) eqn:Hok.
    + rewrite (deplete_new_events func chain x rates dt matrix_func s Hok).
      eexists. split; [done|].
      destruct (run_trace_others func chain x rates dt matrix_func s)
        as [Hp Hf].
      destruct (run_trace_builds func chain x rates dt matrix_func s)
        as (k & Hk & _).
      destruct (run_trace_funcs func chain dt matrix_func x rates s)
        as (done & Hd & Hpos).
      split_and!; [done|by exists k|by exists done|done].
    + by rewrite (deplete_invalid_events func chain x rates dt matrix_func s Hok)
        in He.
Qed.

(** C8. Without a [matrix_func] every matrix is built by
    [chain.form_matrix(rates_i, yield_i)]; with one, by
    [matrix_func(chain, rates_i, yield_i)].  No other builder call is
    made, the calls are in the order of the materials, the matrix handed
    to [func] for material [i] is what call [i] returned, and when no
    collaborator raises the call returns having made exactly one call for
    each material, and one more when [rates] goes on beyond the atom
    vectors. *)
Theorem builder_call_form s :
  (exists k,
     builder_calls s (run s).1 =
       map (fun p : Rate * Yield =>
              match matrix_func with
              | None => EvFormMatrix chain p.1 p.2
              | Some _ => EvMatrixFunc chain p.1 p.2
              end)
         (take k (paired rates (fission_yields chain)))) /\
  (forall res, (run s).2 = Returns res ->
     forall i w, res !! i = Some w ->
       exists r y m v,
         paired rates (fission_yields chain) !! i = Some (r, y) /\
         builder_calls s (run s).1 !! i =
           Some match matrix_func with
                | None => EvFormMatrix chain r y
                | Some _ => EvMatrixFunc chain r y
                end /\
         match matrix_func with
         | None => form_matrix chain r y
         | Some f => f chain r y
         end = Returns m /\
         x !! i = Some v /\ func m v dt = Returns w) /\
  (length (fission_yields chain) = 1 \/
     length (fission_yields chain) = length x ->
   (forall r y,
      exception_of match matrix_func with
                   | None => form_matrix chain r y
                   | Some f => f chain r y
                   end = None) ->
   (forall m v t, exception_of (func m v t) = None) ->
   exists res, (run s).2 = Returns res /\
     length res = Nat.min (length rates) (length x) /\
     builder_calls s (run s).1 =
       map (fun p : Rate * Yield =>
              match matrix_func with
              | None => EvFormMatrix chain p.1 p.2
              | Some _ => EvMatrixFunc chain p.1 p.2
              end)
         (take (Nat.min (length (paired rates (fission_yields chain)))
                  (S (length x)))
            (paired rates (fission_yields chain)))).
Proof.
  destruct (deplete_builder_calls func chain x rates dt matrix_func s)
    as (k & Hk & Hret).
  split_and!.
  - by exists k.
  - intros res Hres i w Hi.
    destruct (deplete_results func chain x rates dt matrix_func s Hres)
      as [_ Hpos].
    destruct (Hpos i w Hi) as (r & y & m & v & Hp & Hm & Hv & Hw).
    assert (Hi' : i < length res) by (by eapply lookup_lt_Some).
    destruct (deplete_builder_lookup func chain x rates dt matrix_func s Hres Hi')
      as (p & Hp' & Hc).
    exists r, y, m, v. split_and!; try done.
    rewrite Hc. by simplify_eq.
  - intros Hlen Hout Hfunc.
    assert (Hok : table_ok (fission_yields chain) x = true).
    { unfold table_ok. apply orb_true_iff. by rewrite !Nat.eqb_eq. }
    destruct (deplete_total func chain x rates dt matrix_func s Hok Hout Hfunc)
      as [res Hres].
    assert (Hlres : length res = Nat.min (length rates) (length x)).
    { apply (deplete_results_length func chain x rates dt matrix_func s);
        [intros r y; apply exception_of_no_stop, Hout
        |intros m v t; apply exception_of_no_stop, Hfunc|done]. }
    exists res. split_and!; [done..|].
    rewrite Hk. do 2 f_equal.
    pose proof (paired_length chain x rates Hok).
    destruct (Hret res Hres); lia.
Qed.

(** C10, as amended.  Only the length of the table of yields is checked.
    A call that returns gives at most as many results as the shorter of
    [rates] and [x] has elements, exactly as many when no collaborator
    raises [StopIteration]; and a [rates] shorter than [x] is no error:
    with a table that passes the check and collaborators that do not
    raise, the call returns. *)
Theorem result_length_is_min s :
  (forall res, (run s).2 = Returns res ->
     length res <= Nat.min (length rates) (length x)) /\
  (forall res, (run s).2 = Returns res ->
     (forall r y,
        builder_outcome matrix_func chain r y <> Raises StopIteration) ->
     (forall m v t, func m v t <> Raises StopIteration) ->
     length res = Nat.min (length rates) (length x)) /\
  (table_ok (fission_yields chain) x = true ->
   (forall r y, exception_of (builder_outcome matrix_func chain r y) = None) ->
   (forall m v t, exception_of (func m v t) = None) ->
   exists res, (run s).2 = Returns res /\
     length res = Nat.min (length rates) (length x)).
Proof.
  split_and!.
  - intros res Hres.
    by destruct (deplete_results func chain x rates dt matrix_func s Hres).
  - intros res Hres Hnb Hnf.
    by apply (deplete_results_length func chain x rates dt matrix_func s).
  - intros Hok Hout Hfunc.
    destruct (deplete_total func chain x rates dt matrix_func s Hok Hout Hfunc)
      as [res Hres].
    exists res. split; [done|].
    apply (deplete_results_length func chain x rates dt matrix_func s);
      [intros r y; apply exception_of_no_stop, Hout
      |intros m v t; apply exception_of_no_stop, Hfunc|done].
Qed.
End Claims.

(** C9. [deplete] leaves the dispatcher as it was: after any two calls in
    a row on a dispatcher built from [use_multiprocessing], its pool class
    is still the one the constructor chose, and every executor acquired or
    released by the two calls was of that class. *)
Theorem deplete_keeps_pool_class (use_multiprocessing : pyobj)
    func1 chain1 x1 rates1 dt1 matrix_func1
    func2 chain2 x2 rates2 dt2 matrix_func2 s :
  this s = DepletionDispatcher_init use_multiprocessing ->
  let s1 := (DepletionDispatcher_deplete
               func1 chain1 x1 rates1 dt1 matrix_func1 s).1 in
  let s2 := (DepletionDispatcher_deplete
               func2 chain2 x2 rates2 dt2 matrix_func2 s1).1 in
  let cls := if truthy use_multiprocessing then Pool else PoolShim in
  this s1 = this s /\ this s2 = this s /\
  forall e, e ∈ new_events s s2 -> is_pool e = true ->
    e = EvEnter cls \/ e = EvExit cls.
Proof.
  intros Hthis s1 s2 cls.
  destruct (deplete_log func1 chain1 x1 rates1 dt1 matrix_func1 s)
    as [Ht1 Hl1].
  destruct (deplete_log func2 chain2 x2 rates2 dt2 matrix_func2 s1)
    as [Ht2 Hl2].
  fold s1 in Ht1, Hl1. fold s2 in Ht2, Hl2.
  assert (Hcls : _pool_class (this s) = cls) by (by rewrite Hthis).
  split_and!; [done|congruence|].
  intros e. unfold new_events at 1. rewrite Hl2, Hl1, <- app_assoc.
  rewrite drop_app_length. intros [Hin|Hin]%elem_of_app He.
  - rewrite <- Hcls. by eapply deplete_pool_events.
  - rewrite <- Hcls, <- Ht1. by eapply deplete_pool_events.
Qed.

(** The module-level function never looks at its [matrix_func], and runs
    the method of a dispatcher of class [Pool] without one. *)
Lemma deplete_ignores_matrix_func func chain x rates dt matrix_func s :
  deplete func chain x rates dt matrix_func s =
  deplete func chain x rates dt None s.
Proof. reflexivity. Qed.

Lemma deplete_is_default_method func chain x rates dt matrix_func s :
  _pool_class (this s) = Pool ->
  (deplete func chain x rates dt matrix_func s).2 =
  (DepletionDispatcher_deplete func chain x rates dt None s).2.
Proof.
  intros Hcls. unfold deplete, call_on.
  replace {| this := DepletionDispatcher_init (PyClass Pool);
             log := log s; oracle := oracle s |} with s.
  - by destruct (DepletionDispatcher_deplete func chain x rates dt None s).
  - destruct s as [[cls] l o]. simpl in *. by subst.
Qed.

(** * Further properties of the module *)

Section More.
Variable func : Matrix -> Vec -> Time -> result Vec.
Variable chain : Chain.
Variable dt : Time.
Variable matrix_func : option (Chain -> Rate -> Yield -> result Matrix).

Abbreviation ev := (builder_event (Vec:=Vec) (Time:=Time) matrix_func chain).
Abbreviation out := (builder_outcome matrix_func chain).

(** In a list of tuples that came out, the builder returned for every
    tuple, and for the pair after the last tuple, if there is one, it
    returned or raised [StopIteration]. *)
Lemma zip_trace_Returns_builds ps : forall xs tasks,
  (zip_trace ev out dt ps xs).2 = Returns tasks ->
  forall i r y, i <= length tasks -> ps !! i = Some (r, y) ->
    exception_of (out r y) = None \/ out r y = Raises StopIteration.
Proof.
  induction ps as [|[r0 y0] ps IH]; intros xs tasks; simpl.
  - intros _ i r y _ Hi. by rewrite lookup_nil in Hi.
  - destruct (out r0 y0) as [m|e0] eqn:Hout.
    + destruct xs as [|v xs]; simpl.
      * intros [= <-] [|i] r y Hi Hl; simpl in *; [|lia].
        simplify_eq. left. by rewrite Hout.
      * specialize (IH xs).
        destruct (zip_trace ev out dt ps xs) as [evs [l|e1]]; simpl in *;
          [|done].
        intros [= <-] [|i] r y Hi Hl; simpl in *.
        -- simplify_eq. left. by rewrite Hout.
        -- apply (IH l eq_refl i); [lia|done].
    + simpl. destruct (is_stop e0) eqn:Hs; [|done].
      intros [= <-] [|i] r y Hi Hl; simpl in *; [|lia].
      simplify_eq. right. by rewrite Hout, (is_stop_true _ Hs).
Qed.

Lemma serial_trace_Returns_builds ps : forall xs res,
  (serial_trace ev out func dt ps xs).2 = Returns res ->
  forall i r y, i <= length res -> ps !! i = Some (r, y) ->
    exception_of (out r y) = None \/ out r y = Raises StopIteration.
Proof.
  induction ps as [|[r0 y0] ps IH]; intros xs res; simpl.
  - intros _ i r y _ Hi. by rewrite lookup_nil in Hi.
  - destruct (out r0 y0) as [m|e0] eqn:Hout.
    + destruct xs as [|v xs]; simpl.
      * intros [= <-] [|i] r y Hi Hl; simpl in *; [|lia].
        simplify_eq. left. by rewrite Hout.
      * destruct (func m v dt) as [w|e1]; simpl.
        -- specialize (IH xs).
           destruct (serial_trace ev out func dt ps xs) as [evs [l|e2]];
             simpl in *; [|done].
           intros [= <-] [|i] r y Hi Hl; simpl in *.
           ++ simplify_eq. left. by rewrite Hout.
           ++ apply (IH l eq_refl i); [lia|done].
        -- destruct (is_stop e1); [|done].
           intros [= <-] [|i] r y Hi Hl; simpl in *; [|lia].
           simplify_eq. left. by rewrite Hout.
    + simpl. destruct (is_stop e0) eqn:Hs; [|done].
      intros [= <-] [|i] r y Hi Hl; simpl in *; [|lia].
      simplify_eq. right. by rewrite Hout, (is_stop_true _ Hs).
Qed.

Lemma apply_all_length (tasks : list task) res :
  apply_all func tasks = Returns res -> length res = length tasks.
Proof. intros H%apply_all_Forall2. symmetry. by eapply Forall2_length. Qed.

Lemma starmap_results_apply_all (tasks : list task) : forall res,
  apply_all func tasks = Returns res ->
  starmap_results func tasks = Returns res.
Proof.
  induction tasks as [|[[m v] t] tasks IH]; intros res; simpl; [done|].
  destruct (func m v t) as [w|e]; [|done].
  destruct (apply_all func tasks) as [ws|e]; simpl; [|done].
  intros [= <-]. by rewrite (IH ws).
Qed.

(** A call that returns did not see the builder raise anything but
    [StopIteration] on the pairs of its results and on the pair after
    them. *)
Lemma deplete_Returns_builds x rates s res :
  (DepletionDispatcher_deplete func chain x rates dt matrix_func s).2
    = Returns res ->
  forall i r y, i <= length res ->
    paired rates (fission_yields chain) !! i = Some (r, y) ->
    exception_of (out r y) = None \/ out r y = Raises StopIteration.
Proof.
  intros Hres. pose proof (deplete_Returns_ok _ _ _ _ _ _ _ Hres) as Hok.
  destruct (_pool_class (this s)) eqn:Hcls.
  - apply (deplete_Returns_Pool func chain x rates dt matrix_func s res Hcls)
      in Hres as (_ & tasks & Hz & Ha).
    intros i r y Hi. rewrite (apply_all_length _ Ha) in Hi.
    by eapply zip_trace_Returns_builds.
  - destruct (deplete_run func chain x rates dt matrix_func s Hok)
      as (_ & _ & Hout).
    rewrite Hout in Hres. unfold run_trace in Hres. rewrite Hcls in Hres.
    by eapply serial_trace_Returns_builds.
Qed.
End More.

Lemma paired_length_rates (rates : list Rate) (yields : list Yield) :
  length (paired rates yields) <= length rates.
Proof.
  unfold paired. destruct yields as [|y [|y' ys]];
    rewrite ?length_map, ?length_combine; lia.
Qed.

Lemma paired_replicate (rates : list Rate) (y : Yield) n :
  length rates <= n ->
  paired rates (replicate n y) = map (fun r => (r, y)) rates.
Proof.
  intros Hn. unfold paired.
  assert (forall k (l : list Rate), length l <= k ->
            combine l (replicate k y) = map (fun r => (r, y)) l) as Hcomb.
  { induction k as [|k IH]; intros [|a l] Hl; simpl in *; try done; [lia|].
    f_equal. apply IH. lia. }
  destruct n as [|[|n]]; simpl; [|done|].
  - by rewrite (Hcomb 0).
  - by rewrite <- (Hcomb (S (S n))).
Qed.

Lemma deplete_function_run func chain x rates dt matrix_func s :
  let s0 := {| this := DepletionDispatcher_init (PyClass Pool);
               log := log s; oracle := oracle s |} in
  (deplete func chain x rates dt matrix_func s).2 =
    (DepletionDispatcher_deplete func chain x rates dt None s0).2 /\
  this (deplete func chain x rates dt matrix_func s).1 = this s /\
  new_events s (deplete func chain x rates dt matrix_func s).1 =
    new_events s0 (DepletionDispatcher_deplete func chain x rates dt None s0).1.
Proof.
  intros s0. unfold deplete, call_on. fold s0.
  by destruct (DepletionDispatcher_deplete func chain x rates dt None s0).
Qed.

(** X1. Whatever [matrix_func] the module-level [deplete] is given and
    whatever dispatcher exists, it returns a list exactly when the method
    of a dispatcher called without [matrix_func] returns that list: of any
    dispatcher of class [Pool], and of any dispatcher at all when [func]
    does not raise [StopIteration]. *)
Theorem deplete_function_returns_default func chain x rates dt matrix_func
    s s' res :
  _pool_class (this s') = Pool \/
    (forall m v t, func m v t <> Raises StopIteration) ->
  (deplete func chain x rates dt matrix_func s).2 = Returns res <->
  (DepletionDispatcher_deplete func chain x rates dt None s').2 = Returns res.
Proof.
  intros Hcase.
  destruct (deplete_function_run func chain x rates dt matrix_func s)
    as (-> & _ & _).
  rewrite (deplete_Returns_Pool func chain x rates dt None
             {| this := DepletionDispatcher_init (PyClass Pool);
                log := log s; oracle := oracle s |} res eq_refl).
  destruct Hcase as [Hcls|Hns].
  - by rewrite (deplete_Returns_Pool func chain x rates dt None s' res Hcls).
  - by rewrite (deplete_Returns func chain x rates dt None s' res Hns).
Qed.

(** X2. The module-level [deplete] always runs in a process pool, also
    when the current dispatcher is serial, and leaves that dispatcher as it
    was: the class [Pool] it passes as [use_multiprocessing] is true. *)
Theorem deplete_function_uses_process_pool func chain x rates dt matrix_func s :
  this (deplete func chain x rates dt matrix_func s).1 = this s /\
  forall e,
    e ∈ new_events s (deplete func chain x rates dt matrix_func s).1 ->
    is_pool e = true -> e = EvEnter Pool \/ e = EvExit Pool.
Proof.
  destruct (deplete_function_run func chain x rates dt matrix_func s)
    as (_ & Hthis & ->).
  split; [done|]. intros e Hin He.
  eapply deplete_pool_events in Hin; [exact Hin|exact He].
Qed.

(** X3. Every call whose table of yields passes the check acquires the
    executor exactly once and releases it exactly once, first and last of
    all it does, whether it returns or raises. *)
Theorem executor_acquired_and_released_once func chain x rates dt matrix_func s :
  length (fission_yields chain) = 1 \/
    length (fission_yields chain) = length x ->
  exists calls,
    new_events s
      (DepletionDispatcher_deplete func chain x rates dt matrix_func s).1 =
      EvEnter (_pool_class (this s)) :: calls
        ++ [EvExit (_pool_class (this s))] /\
    List.filter is_pool calls = [].
Proof.
  intros Hlen.
  assert (Hok : table_ok (fission_yields chain) x = true).
  { unfold table_ok. apply orb_true_iff. by rewrite !Nat.eqb_eq. }
  rewrite (deplete_new_events func chain x rates dt matrix_func s Hok).
  eexists. split; [done|].
  by destruct (run_trace_others func chain x rates dt matrix_func s).
Qed.

(** X4. With a single yield and more elements in [rates] than atom
    vectors, a call that returns a result for every atom vector has built
    one matrix more than it integrated: the builder was also called for
    the first surplus element of [rates], and that matrix is dropped. *)
Theorem single_yield_surplus_matrix func chain x rates dt matrix_func y s res :
  fission_yields chain = [y] ->
  length x < length rates ->
  (DepletionDispatcher_deplete func chain x rates dt matrix_func s).2
    = Returns res ->
  length res = length x ->
  length (builder_calls s
            (DepletionDispatcher_deplete func chain x rates dt matrix_func s).1)
    = S (length x) /\
  exists r, rates !! length x = Some r /\
    builder_calls s
      (DepletionDispatcher_deplete func chain x rates dt matrix_func s).1
      !! length x = Some (builder_event matrix_func chain r y).
Proof.
  intros Hy Hlen Hres Hlres.
  destruct (deplete_builder_calls func chain x rates dt matrix_func s)
    as (k & Hk & Hret).
  rewrite Hy in Hk, Hret. simpl in Hk, Hret. rewrite length_map in Hret.
  assert (k = S (length x)) as -> by (destruct (Hret res Hres); lia).
  destruct (lookup_lt_is_Some_2 rates (length x) Hlen) as [r Hr].
  split.
  - rewrite Hk, length_map, length_take, length_map. lia.
  - exists r. split; [done|].
    rewrite Hk, !map_fmap, list_lookup_fmap, lookup_take_lt by lia.
    by rewrite list_lookup_fmap, Hr.
Qed.

(** X5. With a single yield, a builder that raises anything but
    [StopIteration] on the first surplus element of [rates] keeps the call
    from returning a result for every atom vector, although no result
    depends on that matrix. *)
Theorem surplus_builder_failure_fails_call func chain x rates dt matrix_func
    y r e s :
  fission_yields chain = [y] ->
  rates !! length x = Some r ->
  builder_outcome matrix_func chain r y = Raises e ->
  e <> StopIteration ->
  forall res,
    (DepletionDispatcher_deplete func chain x rates dt matrix_func s).2
      = Returns res ->
    length res < length x.
Proof.
  intros Hy Hr He Hns res Hres.
  destruct (deplete_results func chain x rates dt matrix_func s Hres)
    as [Hle _].
  destruct (decide (length res < length x)) as [|Hge]; [done|].
  assert (Hp : paired rates (fission_yields chain) !! length x = Some (r, y)).
  { rewrite Hy. simpl. by rewrite map_fmap, list_lookup_fmap, Hr. }
  assert (Hi : length x <= length res) by lia.
  destruct (deplete_Returns_builds _ _ _ _ _ _ _ Hres Hi Hp) as [Hnone|Hstop].
  - by rewrite He in Hnone.
  - rewrite He in Hstop. by simplify_eq.
Qed.

(** X6. The serial shim computes on demand: in a call that returns, the
    matrix of material [i] is built and integrated before the matrix of the
    next material is built, the two calls taking the places [1 + 2 i] and
    [2 + 2 i] of the call's log. *)
Theorem serial_calls_interleave func chain x rates dt matrix_func s res :
  _pool_class (this s) = PoolShim ->
  (DepletionDispatcher_deplete func chain x rates dt matrix_func s).2
    = Returns res ->
  forall i w, res !! i = Some w ->
    exists r y m v,
      paired rates (fission_yields chain) !! i = Some (r, y) /\
      builder_outcome matrix_func chain r y = Returns m /\
      x !! i = Some v /\
      new_events s
        (DepletionDispatcher_deplete func chain x rates dt matrix_func s).1
        !! (1 + 2 * i) = Some (builder_event matrix_func chain r y) /\
      new_events s
        (DepletionDispatcher_deplete func chain x rates dt matrix_func s).1
        !! (2 + 2 * i) = Some (EvFunc m v dt).
Proof.
  intros Hcls Hres i w Hi.
  pose proof (deplete_Returns_ok _ _ _ _ _ _ _ Hres) as Hok.
  rewrite (deplete_new_events func chain x rates dt matrix_func s Hok).
  destruct (deplete_run func chain x rates dt matrix_func s Hok)
    as (_ & _ & Hout).
  rewrite Hout in Hres. unfold run_trace in *. rewrite Hcls in *.
  destruct (serial_trace_interleaved _ _ _ _ _ _ Hres) as [_ Hpos].
  destruct (Hpos i w Hi) as (r & y & m & v & ? & ? & ? & _ & H1 & H2).
  exists r, y, m, v. split_and!; try done.
  - by apply lookup_app_l_Some.
  - by apply lookup_app_l_Some.
Qed.

(** X7. In the serial shim the call that raises is the last call made:
    no matrix is built and no material integrated after it, and no call
    before it raised; the release of the executor follows it at once. *)
Theorem serial_failure_is_last_call func chain x rates dt matrix_func s e :
  _pool_class (this s) = PoolShim ->
  length (fission_yields chain) = 1 \/
    length (fission_yields chain) = length x ->
  (DepletionDispatcher_deplete func chain x rates dt matrix_func s).2
    = Raises e ->
  exists pre last,
    new_events s
      (DepletionDispatcher_deplete func chain x rates dt matrix_func s).1 =
      EvEnter PoolShim :: pre ++ [last; EvExit PoolShim] /\
    raised_by func matrix_func last = Some e /\
    first_raise (raised_by func matrix_func) pre = None.
Proof.
  intros Hcls Hlen Hres.
  assert (Hok : table_ok (fission_yields chain) x = true).
  { unfold table_ok. apply orb_true_iff. by rewrite !Nat.eqb_eq. }
  rewrite (deplete_new_events func chain x rates dt matrix_func s Hok).
  destruct (deplete_run func chain x rates dt matrix_func s Hok)
    as (_ & _ & Hout).
  rewrite Hout in Hres. unfold run_trace in *. rewrite Hcls in *.
  apply serial_trace_raises_last in Hres as (pre & last & -> & Hl & Hp).
  exists pre, last. split_and!; try done. by rewrite <- app_assoc.
Qed.

(** X8. [PoolShim] used as its documentation shows, on a list of tuples:
    [with PoolShim() as pool: list(pool.starmap(func, tasks))] applies
    [func] to the tuples in order, between the entry and the exit, to no
    tuple after the first on which [func] raises; it gives the results in
    order when [func] raises on none, the results before the first tuple
    on which [func] raises [StopIteration], and raises what [func] raises
    otherwise. *)
Theorem PoolShim_starmap_in_order func (tasks : list task) s :
  exists k,
    with_pool PoolShim
      (fun pool =>
         computed <- pool_starmap pool (call_func func) (it_list tasks);
         py_list computed) s =
      (emit (EvEnter PoolShim
               :: map (func_event (Rate:=Rate) (Yield:=Yield) (E:=E))
                    (take k tasks)
               ++ [EvExit PoolShim]) s,
       match starmap_results func tasks with
       | Returns results => Returns (Some results)
       | Raises e => Raises e
       end) /\
    k <= length tasks /\
    (forall results, apply_all func tasks = Returns results ->
       k = length tasks /\ starmap_results func tasks = Returns results).
Proof.
  destruct (drain_starmap_list func tasks (fuel := S (length tasks))
              (emit [EvEnter PoolShim] s)) as (k & Hk & Hle & Hret); [lia|].
  exists k. split_and!; [|done|].
  - unfold with_pool, pool_enter, pool_exit, attempt.
    rewrite !bind_run. simpl. rewrite !bind_run. unfold PoolShim_starmap.
    rewrite ret_run. cbn beta iota. unfold py_list. cbn [remaining].
    rewrite Hk.
    destruct (starmap_results func tasks) as [l|e]; simpl; rewrite !bind_run;
      simpl; by rewrite !emit_emit.
  - intros results Ha. split; [by eapply Hret|].
    by apply starmap_results_apply_all.
Qed.

(** X9. Without reaction rates nothing is computed: a call whose table
    passes the check only acquires and releases the executor and returns
    the empty list, however many atom vectors it was given. *)
Theorem empty_rates_return_nothing func chain x dt matrix_func s :
  length (fission_yields chain) = 1 \/
    length (fission_yields chain) = length x ->
  new_events s
    (DepletionDispatcher_deplete func chain x [] dt matrix_func s).1 =
    [EvEnter (_pool_class (this s)); EvExit (_pool_class (this s))] /\
  (DepletionDispatcher_deplete func chain x [] dt matrix_func s).2 = Returns [].
Proof.
  intros Hlen.
  assert (Hok : table_ok (fission_yields chain) x = true).
  { unfold table_ok. apply orb_true_iff. by rewrite !Nat.eqb_eq. }
  rewrite (deplete_new_events func chain x [] dt matrix_func s Hok).
  destruct (deplete_run func chain x [] dt matrix_func s Hok)
    as (_ & _ & ->).
  assert (Hps : paired (@nil Rate) (fission_yields chain) = [])
    by (unfold paired; by destruct (fission_yields chain) as [|? [|? ?]]).
  unfold run_trace. rewrite Hps.
  by destruct (_pool_class (this s)).
Qed.

(** X10. In every call the builder is called at most once for each
    element of [rates] and at most once more than there are atom vectors,
    and [func] at most once for each atom vector. *)
Theorem call_counts_bounded func chain x rates dt matrix_func s :
  length (builder_calls s
            (DepletionDispatcher_deplete func chain x rates dt matrix_func s).1)
    <= Nat.min (length rates) (S (length x)) /\
  length (List.filter is_func
            (new_events s
               (DepletionDispatcher_deplete func chain x rates dt
                  matrix_func s).1))
    <= length x.
Proof.
  unfold builder_calls.
  destruct (table_ok (fission_yields chain) x) eqn:Hok.
  - rewrite (deplete_new_events func chain x rates dt matrix_func s Hok).
    simpl. rewrite !List.filter_app. simpl. rewrite !app_nil_r.
    split; [|by destruct (run_trace_others func chain x rates dt matrix_func s)].
    pose proof (paired_length_rates rates (fission_yields chain)) as Hpl.
    unfold run_trace. destruct (_pool_class (this s)).
    + pose proof (zip_trace_count chain dt matrix_func
                    (paired rates (fission_yields chain)) x) as Hc.
      destruct (zip_trace_events chain dt matrix_func
                  (paired rates (fission_yields chain)) x) as (k & Hk & _).
      destruct (zip_trace _ _ _ _ _) as [evs [tasks|e]]; simpl in *; subst evs.
      * rewrite List.filter_app, filter_builds, filter_build_funcs, app_nil_r.
        lia.
      * rewrite filter_builds. lia.
    + pose proof (serial_trace_count func chain dt matrix_func
                    (paired rates (fission_yields chain)) x). lia.
  - rewrite (deplete_invalid_events func chain x rates dt matrix_func s Hok).
    simpl. lia.
Qed.

(** X11. Sharing one yield is the same as repeating it: when [rates] has
    no more elements than there are atom vectors, a call with the single
    yield [y] and the chain's own builder returns a list exactly when the
    call of a dispatcher of the same class with a table of [len(x)] copies
    of [y] returns it. *)
Theorem single_yield_equals_repeated_table func chain x rates dt y s s' res :
  fission_yields chain = [y] ->
  length rates <= length x ->
  _pool_class (this s') = _pool_class (this s) ->
  (DepletionDispatcher_deplete func chain x rates dt None s).2 = Returns res <->
  (DepletionDispatcher_deplete func
     {| fission_yields := replicate (length x) y;
        form_matrix := form_matrix chain |}
     x rates dt None s').2 = Returns res.
Proof.
  intros Hy Hlen Hcls.
  set (chain' := {| fission_yields := replicate (length x) y;
                    form_matrix := form_matrix chain |}).
  assert (Hok : table_ok (fission_yields chain) x = true) by (by rewrite Hy).
  assert (Hok' : table_ok (fission_yields chain') x = true).
  { unfold table_ok. simpl. rewrite length_replicate, Nat.eqb_refl.
    apply orb_true_r. }
  assert (Hps : paired rates (fission_yields chain') =
                paired rates (fission_yields chain)).
  { simpl. by rewrite Hy, (paired_replicate rates y Hlen). }
  destruct (_pool_class (this s)) eqn:Hc.
  - rewrite (deplete_Returns_Pool func chain x rates dt None s res Hc).
    rewrite (deplete_Returns_Pool func chain' x rates dt None s' res Hcls).
    rewrite Hok, Hok', Hps. unfold builder_outcome.
    replace (form_matrix chain') with (form_matrix chain) by done.
    by rewrite (zip_trace_result_ev dt
                  (builder_event None chain) (builder_event None chain')
                  (form_matrix chain)).
  - destruct (deplete_run func chain x rates dt None s Hok) as (_ & _ & ->).
    destruct (deplete_run func chain' x rates dt None s' Hok')
      as (_ & _ & ->).
    unfold run_trace. rewrite Hcls, Hc, Hps. unfold builder_outcome.
    replace (form_matrix chain') with (form_matrix chain) by done.
    by rewrite (serial_trace_result_ev func dt
                  (builder_event None chain) (builder_event None chain')
                  (form_matrix chain)).
Qed.
End Proofs.

(** * The claims on the small instance *)

(** C1. The one-shot [deplete] does not honour a caller's [matrix_func]:
    on three materials with the single yield [7] it integrates the matrices
    [r + 7] of [chain.form_matrix], where the method of a dispatcher, given
    the same arguments, integrates the matrices [r * 7] of [matrix_func];
    the log of the one-shot call has no call of [matrix_func]. *)
Theorem oneshot_discards_matrix_func :
  (deplete ex_func (ex_chain [7]) [1; 2; 3] [10; 20; 30] 5
     (Some ex_matrix_func) (ex_state true [])).2 = Returns [22; 59; 116] /\
  (DepletionDispatcher_deplete ex_func (ex_chain [7]) [1; 2; 3] [10; 20; 30] 5
     (Some ex_matrix_func) (ex_state true [])).2 = Returns [75; 285; 635] /\
  builder_calls (ex_state true [])
    (deplete ex_func (ex_chain [7]) [1; 2; 3] [10; 20; 30] 5
       (Some ex_matrix_func) (ex_state true [])).1 =
    [EvFormMatrix (ex_chain [7]) 10 7; EvFormMatrix (ex_chain [7]) 20 7;
     EvFormMatrix (ex_chain [7]) 30 7].
Proof. split_and!; reflexivity. Qed.

(** C2 on a table of two yields for three atom vectors. *)
Lemma deplete_rejects_table_witness :
  (length (fission_yields (ex_chain [7; 8])) <> 1 /\
   length (fission_yields (ex_chain [7; 8])) <> length [1; 2; 3]) /\
  (DepletionDispatcher_deplete ex_func (ex_chain [7; 8]) [1; 2; 3]
     [10; 20; 30] 5 None (ex_state true []) =
     (ex_state true [], Raises (ValueError (mismatch_message 2 3))) /\
   new_events (ex_state true [])
     (DepletionDispatcher_deplete ex_func (ex_chain [7; 8]) [1; 2; 3]
        [10; 20; 30] 5 None (ex_state true [])).1 = []).
Proof.
  split.
  - split; simpl; lia.
  - apply (deplete_rejects_table_before_any_call ex_func (ex_chain [7; 8])
             [1; 2; 3] [10; 20; 30] 5 None (ex_state true []));
      simpl; lia.
Defined.



(** C4 on three materials with a yield each, in the process pool and in
    the serial shim: the call returns, and its builder calls are the three
    of the materials, each with its own yield. *)
Lemma yields_paired_by_position_witness :
  (length (fission_yields (ex_chain [7; 8; 9])) = length [1; 2; 3] /\
   length (fission_yields (ex_chain [7; 8; 9])) <> 1) /\
  ((DepletionDispatcher_deplete ex_func (ex_chain [7; 8; 9]) [1; 2; 3]
      [10; 20; 30] 5 None (ex_state true [1; 1])).2 = Returns [22; 61; 122] /\
   builder_calls (ex_state true [1; 1])
     (DepletionDispatcher_deplete ex_func (ex_chain [7; 8; 9]) [1; 2; 3]
        [10; 20; 30] 5 None (ex_state true [1; 1])).1 =
     [EvFormMatrix (ex_chain [7; 8; 9]) 10 7;
      EvFormMatrix (ex_chain [7; 8; 9]) 20 8;
      EvFormMatrix (ex_chain [7; 8; 9]) 30 9]) /\
  ((DepletionDispatcher_deplete ex_func (ex_chain [7; 8; 9]) [1; 2; 3]
      [10; 20; 30] 5 None (ex_state false [])).2 = Returns [22; 61; 122] /\
   builder_calls (ex_state false [])
     (DepletionDispatcher_deplete ex_func (ex_chain [7; 8; 9]) [1; 2; 3]
        [10; 20; 30] 5 None (ex_state false [])).1 =
     [EvFormMatrix (ex_chain [7; 8; 9]) 10 7;
      EvFormMatrix (ex_chain [7; 8; 9]) 20 8;
      EvFormMatrix (ex_chain [7; 8; 9]) 30 9]) /\
  (forall i, i < length [22; 61; 122] ->
     exists r y, [10; 20; 30] !! i = Some r /\
       fission_yields (ex_chain [7; 8; 9]) !! i = Some y /\
       builder_calls (ex_state true [1; 1])
         (DepletionDispatcher_deplete ex_func (ex_chain [7; 8; 9]) [1; 2; 3]
            [10; 20; 30] 5 None (ex_state true [1; 1])).1 !! i
         = Some (builder_event None (ex_chain [7; 8; 9]) r y)) /\
  (exists res,
     (DepletionDispatcher_deplete ex_func (ex_chain [7; 8; 9]) [1; 2; 3]
        [10; 20; 30] 5 None (ex_state false [])).2 = Returns res /\
     length res = Nat.min (length [10; 20; 30]) (length [1; 2; 3]) /\
     length
       (builder_calls (ex_state false [])
          (DepletionDispatcher_deplete ex_func (ex_chain [7; 8; 9]) [1; 2; 3]
             [10; 20; 30] 5 None (ex_state false [])).1) =
       Nat.min (length [10; 20; 30]) (length [1; 2; 3])).
Proof.
  refine (conj _ (conj _ (conj _ (conj _ _)))).
  - split; simpl; lia.
  - split; reflexivity.
  - split; reflexivity.
  - destruct (yields_paired_by_position ex_func (ex_chain [7; 8; 9])
                [1; 2; 3] [10; 20; 30] 5 None (ex_state true [1; 1]))
      as (_ & H & _); [reflexivity|simpl; lia|].
    apply (H [22; 61; 122]). reflexivity.
  - destruct (yields_paired_by_position ex_func (ex_chain [7; 8; 9])
                [1; 2; 3] [10; 20; 30] 5 None (ex_state false []))
      as (_ & _ & H); [reflexivity|simpl; lia|].
    apply H; intros; reflexivity.
Defined.

(** C5 on three materials: in the process pool, the last tuple completing
    first, and in the serial shim, the call returns the three results in
    the order of the materials. *)
Lemma results_follow_input_order_witness :
  (table_ok (fission_yields (ex_chain [7; 8; 9])) [1; 2; 3] = true /\
   (forall r y,
      exception_of (builder_outcome None (ex_chain [7; 8; 9]) r y) = None) /\
   (forall m v t, exception_of (ex_func m v t) = None)) /\
  ((DepletionDispatcher_deplete ex_func (ex_chain [7; 8; 9]) [1; 2; 3]
      [10; 20; 30] 5 None (ex_state true [2; 0])).2 = Returns [22; 61; 122] /\
   (DepletionDispatcher_deplete ex_func (ex_chain [7; 8; 9]) [1; 2; 3]
      [10; 20; 30] 5 None (ex_state false [])).2 = Returns [22; 61; 122]) /\
  (forall i w, [22; 61; 122] !! i = Some w ->
     exists r y m v,
       paired [10; 20; 30] (fission_yields (ex_chain [7; 8; 9])) !! i
         = Some (r, y) /\
       builder_outcome None (ex_chain [7; 8; 9]) r y = Returns m /\
       [1; 2; 3] !! i = Some v /\
       ex_func m v 5 = Returns w) /\
  (exists res,
     (DepletionDispatcher_deplete ex_func (ex_chain [7; 8; 9]) [1; 2; 3]
        [10; 20; 30] 5 None (ex_state true [2; 0])).2 = Returns res /\
     length res = Nat.min (length [10; 20; 30]) (length [1; 2; 3])) /\
  (exists res,
     (DepletionDispatcher_deplete ex_func (ex_chain [7; 8; 9]) [1; 2; 3]
        [10; 20; 30] 5 None (ex_state false [])).2 = Returns res /\
     length res = Nat.min (length [10; 20; 30]) (length [1; 2; 3])).
Proof.
  refine (conj _ (conj _ (conj _ (conj _ _)))).
  - split_and!; [reflexivity|intros; reflexivity..].
  - split; reflexivity.
  - apply (proj1 (results_follow_input_order ex_func (ex_chain [7; 8; 9])
                    [1; 2; 3] [10; 20; 30] 5 None (ex_state true [2; 0]))
             [22; 61; 122]).
    reflexivity.
  - apply (proj2 (results_follow_input_order ex_func (ex_chain [7; 8; 9])
                    [1; 2; 3] [10; 20; 30] 5 None (ex_state true [2; 0])));
      [reflexivity|intros; reflexivity..].
  - apply (proj2 (results_follow_input_order ex_func (ex_chain [7; 8; 9])
                    [1; 2; 3] [10; 20; 30] 5 None (ex_state false [])));
      [reflexivity|intros; reflexivity..].
Defined.

(** C6 as stated fails: with an integration that raises [StopIteration]
    on the second of three materials, the serial dispatcher returns the
    one result before it, and the parallel dispatcher does not return that
    list. *)
Lemma serial_parallel_disagree_on_stop :
  this (ex_state true [2; 0]) = DepletionDispatcher_init (PyBool true) /\
  this (ex_state false []) = DepletionDispatcher_init (PyBool false) /\
  (DepletionDispatcher_deplete ex_stopping_func (ex_chain [7]) [1; 2; 3]
     [10; 20; 30] 5 None (ex_state false [])).2 = Returns [22] /\
  (DepletionDispatcher_deplete ex_stopping_func (ex_chain [7]) [1; 2; 3]
     [10; 20; 30] 5 None (ex_state true [2; 0])).2 <> Returns [22] /\
  ~ ((DepletionDispatcher_deplete ex_stopping_func (ex_chain [7]) [1; 2; 3]
        [10; 20; 30] 5 None (ex_state true [2; 0])).2 = Returns [22] <->
     (DepletionDispatcher_deplete ex_stopping_func (ex_chain [7]) [1; 2; 3]
        [10; 20; 30] 5 None (ex_state false [])).2 = Returns [22]).
Proof.
  split_and!; [reflexivity..|discriminate|].
  intros [_ H]. discriminate (H eq_refl).
Qed.

(** C6 as amended, on the same inputs: a scrambled completion order
    against the serial shim, both returning the three results. *)
Lemma serial_parallel_agree_witness :
  ((forall m v t, ex_func m v t <> Raises StopIteration) /\
   this (ex_state true [2; 0; 1]) = DepletionDispatcher_init (PyBool true) /\
   this (ex_state false []) = DepletionDispatcher_init (PyBool false)) /\
  ((DepletionDispatcher_deplete ex_func (ex_chain [7; 8; 9]) [1; 2; 3]
      [10; 20; 30] 5 None (ex_state true [2; 0; 1])).2
     = Returns [22; 61; 122] /\
   (DepletionDispatcher_deplete ex_func (ex_chain [7; 8; 9]) [1; 2; 3]
      [10; 20; 30] 5 None (ex_state false [])).2
     = Returns [22; 61; 122]) /\
  ((DepletionDispatcher_deplete ex_func (ex_chain [7; 8; 9]) [1; 2; 3]
      [10; 20; 30] 5 None (ex_state true [2; 0; 1])).2
     = Returns [22; 61; 122] <->
   (DepletionDispatcher_deplete ex_func (ex_chain [7; 8; 9]) [1; 2; 3]
      [10; 20; 30] 5 None (ex_state false [])).2
     = Returns [22; 61; 122]).
Proof.
  refine (conj _ (conj _ _)).
  - split_and!; [intros m v t; discriminate|reflexivity..].
  - split; reflexivity.
  - apply (serial_parallel_agree ex_func (ex_chain [7; 8; 9]) [1; 2; 3]
             [10; 20; 30] 5 None (ex_state true [2; 0; 1]) (ex_state false [])
             [22; 61; 122]);
      [intros m v t; discriminate|reflexivity..].
Defined.

(** C7 as stated fails: in the serial shim an integration that raises
    [StopIteration] on the second of three materials ends the list, and
    the call returns the one result before it instead of raising. *)
Lemma stop_iteration_is_not_propagated :
  first_raise (raised_by ex_stopping_func None)
    (new_events (ex_state false [])
       (DepletionDispatcher_deplete ex_stopping_func (ex_chain [7]) [1; 2; 3]
          [10; 20; 30] 5 None (ex_state false [])).1)
    = Some StopIteration /\
  (DepletionDispatcher_deplete ex_stopping_func (ex_chain [7]) [1; 2; 3]
     [10; 20; 30] 5 None (ex_state false [])).2 = Returns [22] /\
  (DepletionDispatcher_deplete ex_stopping_func (ex_chain [7]) [1; 2; 3]
     [10; 20; 30] 5 None (ex_state false [])).2 <> Raises StopIteration.
Proof. split_and!; [reflexivity..|discriminate]. Qed.

(** C7 as amended, in the process pool: the integrations of the first two
    materials both fail, the second material completing first. *)
Lemma exception_leaves_after_release_witness :
  (first_raise (raised_by ex_failing_func (Some ex_matrix_func))
     (new_events (ex_state true [1; 0])
        (DepletionDispatcher_deplete ex_failing_func (ex_chain [7]) [1; 2; 3]
           [10; 20; 30] 5 (Some ex_matrix_func) (ex_state true [1; 0])).1)
     = Some (Raised 2) /\
   @Raised nat 2 <> StopIteration) /\
  ((DepletionDispatcher_deplete ex_failing_func (ex_chain [7]) [1; 2; 3]
      [10; 20; 30] 5 (Some ex_matrix_func) (ex_state true [1; 0])).2
     = Raises (Raised 2) /\
   exists calls,
     new_events (ex_state true [1; 0])
       (DepletionDispatcher_deplete ex_failing_func (ex_chain [7]) [1; 2; 3]
          [10; 20; 30] 5 (Some ex_matrix_func) (ex_state true [1; 0])).1 =
       EvEnter (_pool_class (this (ex_state true [1; 0]))) :: calls
         ++ [EvExit (_pool_class (this (ex_state true [1; 0])))] /\
     List.filter is_pool calls = [] /\
     (exists k, List.filter is_build calls =
        map (fun p => builder_event (Some ex_matrix_func) (ex_chain [7]) p.1 p.2)
          (take k (paired [10; 20; 30] (fission_yields (ex_chain [7]))))) /\
     (exists done : list (nat * nat * nat),
        List.filter is_func calls ≡ₚ map func_event done /\
        forall i m v t, done !! i = Some (m, v, t) ->
          exists r y,
            paired [10; 20; 30] (fission_yields (ex_chain [7])) !! i
              = Some (r, y) /\
            builder_outcome (Some ex_matrix_func) (ex_chain [7]) r y
              = Returns m /\
            [1; 2; 3] !! i = Some v /\ t = 5) /\
     length (List.filter is_func calls) <= length [1; 2; 3]).
Proof.
  split.
  - split; [reflexivity|discriminate].
  - apply (exception_leaves_after_release ex_failing_func (ex_chain [7])
             [1; 2; 3] [10; 20; 30] 5 (Some ex_matrix_func)
             (ex_state true [1; 0]));
      [reflexivity|discriminate].
Defined.

(** C8 on three materials, without and with a caller's builder: the call
    returns, and its builder calls are three calls of [form_matrix] in the
    one case and three calls of [matrix_func] in the other. *)
Lemma builder_call_form_witness :
  ((length (fission_yields (ex_chain [7; 8; 9])) = 1 \/
    length (fission_yields (ex_chain [7; 8; 9])) = length [1; 2; 3]) /\
   (forall r y,
      exception_of (form_matrix (ex_chain [7; 8; 9]) r y) = None) /\
   (forall r y,
      exception_of (ex_matrix_func (ex_chain [7; 8; 9]) r y) = None) /\
   (forall m v t, exception_of (ex_func m v t) = None)) /\
  ((DepletionDispatcher_deplete ex_func (ex_chain [7; 8; 9]) [1; 2; 3]
      [10; 20; 30] 5 None (ex_state false [])).2 = Returns [22; 61; 122] /\
   builder_calls (ex_state false [])
     (DepletionDispatcher_deplete ex_func (ex_chain [7; 8; 9]) [1; 2; 3]
        [10; 20; 30] 5 None (ex_state false [])).1 =
     [EvFormMatrix (ex_chain [7; 8; 9]) 10 7;
      EvFormMatrix (ex_chain [7; 8; 9]) 20 8;
      EvFormMatrix (ex_chain [7; 8; 9]) 30 9]) /\
  ((DepletionDispatcher_deplete ex_func (ex_chain [7; 8; 9]) [1; 2; 3]
      [10; 20; 30] 5 (Some ex_matrix_func) (ex_state true [1])).2
     = Returns [75; 325; 815] /\
   builder_calls (ex_state true [1])
     (DepletionDispatcher_deplete ex_func (ex_chain [7; 8; 9]) [1; 2; 3]
        [10; 20; 30] 5 (Some ex_matrix_func) (ex_state true [1])).1 =
     [EvMatrixFunc (ex_chain [7; 8; 9]) 10 7;
      EvMatrixFunc (ex_chain [7; 8; 9]) 20 8;
      EvMatrixFunc (ex_chain [7; 8; 9]) 30 9]) /\
  (exists res,
     (DepletionDispatcher_deplete ex_func (ex_chain [7; 8; 9]) [1; 2; 3]
        [10; 20; 30] 5 None (ex_state false [])).2 = Returns res /\
     length res = Nat.min (length [10; 20; 30]) (length [1; 2; 3]) /\
     builder_calls (ex_state false [])
       (DepletionDispatcher_deplete ex_func (ex_chain [7; 8; 9]) [1; 2; 3]
          [10; 20; 30] 5 None (ex_state false [])).1 =
       map (fun p : nat * nat => EvFormMatrix (ex_chain [7; 8; 9]) p.1 p.2)
         (take (Nat.min
                  (length (paired [10; 20; 30]
                             (fission_yields (ex_chain [7; 8; 9]))))
                  (S (length [1; 2; 3])))
            (paired [10; 20; 30] (fission_yields (ex_chain [7; 8; 9]))))) /\
  (exists res,
     (DepletionDispatcher_deplete ex_func (ex_chain [7; 8; 9]) [1; 2; 3]
        [10; 20; 30] 5 (Some ex_matrix_func) (ex_state true [1])).2
       = Returns res /\
     length res = Nat.min (length [10; 20; 30]) (length [1; 2; 3]) /\
     builder_calls (ex_state true [1])
       (DepletionDispatcher_deplete ex_func (ex_chain [7; 8; 9]) [1; 2; 3]
          [10; 20; 30] 5 (Some ex_matrix_func) (ex_state true [1])).1 =
       map (fun p : nat * nat => EvMatrixFunc (ex_chain [7; 8; 9]) p.1 p.2)
         (take (Nat.min
                  (length (paired [10; 20; 30]
                             (fission_yields (ex_chain [7; 8; 9]))))
                  (S (length [1; 2; 3])))
            (paired [10; 20; 30] (fission_yields (ex_chain [7; 8; 9]))))).
Proof.
  refine (conj _ (conj _ (conj _ (conj _ _)))).
  - split_and!; [right; reflexivity|intros; reflexivity..].
  - split; reflexivity.
  - split; reflexivity.
  - apply (proj2 (proj2 (builder_call_form ex_func (ex_chain [7; 8; 9])
                           [1; 2; 3] [10; 20; 30] 5 None
                           (ex_state false []))));
      [right; reflexivity|intros; reflexivity..].
  - apply (proj2 (proj2 (builder_call_form ex_func (ex_chain [7; 8; 9])
                           [1; 2; 3] [10; 20; 30] 5 (Some ex_matrix_func)
                           (ex_state true [1]))));
      [right; reflexivity|intros; reflexivity..].
Defined.

(** C9 on a serial dispatcher: a call that returns, then one that the
    check of the table rejects. *)
Lemma deplete_keeps_pool_class_witness :
  this (ex_state false []) = DepletionDispatcher_init (PyBool false) /\
  (this (DepletionDispatcher_deplete ex_func (ex_chain [7]) [1; 2] [10; 20] 5
           None (ex_state false [])).1 = this (ex_state false []) /\
   this (DepletionDispatcher_deplete ex_func (ex_chain [7; 8]) [1; 2; 3]
           [10; 20; 30] 5 (Some ex_matrix_func)
           (DepletionDispatcher_deplete ex_func (ex_chain [7]) [1; 2] [10; 20] 5
              None (ex_state false [])).1).1 = this (ex_state false []) /\
   forall e,
     e ∈ new_events (ex_state false [])
           (DepletionDispatcher_deplete ex_func (ex_chain [7; 8]) [1; 2; 3]
              [10; 20; 30] 5 (Some ex_matrix_func)
              (DepletionDispatcher_deplete ex_func (ex_chain [7]) [1; 2]
                 [10; 20] 5 None (ex_state false [])).1).1 ->
     is_pool e = true ->
     e = EvEnter (if truthy (PyBool false) then Pool else PoolShim) \/
     e = EvExit (if truthy (PyBool false) then Pool else PoolShim)).
Proof.
  split; [reflexivity|].
  apply (deplete_keeps_pool_class (use_multiprocessing := PyBool false)
           ex_func (ex_chain [7]) [1; 2] [10; 20] 5 None
           ex_func (ex_chain [7; 8]) [1; 2; 3] [10; 20; 30] 5
           (Some ex_matrix_func) (ex_state false [])).
  reflexivity.
Defined.

(** C10 as stated fails: with three rates for three atom vectors and an
    integration that raises [StopIteration] on the second, the call
    returns one result, not three. *)
Lemma stop_iteration_truncates_result :
  table_ok (fission_yields (ex_chain [7])) [1; 2; 3] = true /\
  (DepletionDispatcher_deplete ex_stopping_func (ex_chain [7]) [1; 2; 3]
     [10; 20; 30] 5 None (ex_state false [])).2 = Returns [22] /\
  length [22] <> Nat.min (length [10; 20; 30]) (length [1; 2; 3]) /\
  ~ (forall res,
       (DepletionDispatcher_deplete ex_stopping_func (ex_chain [7]) [1; 2; 3]
          [10; 20; 30] 5 None (ex_state false [])).2 = Returns res ->
       length res = Nat.min (length [10; 20; 30]) (length [1; 2; 3])).
Proof.
  split_and!; [reflexivity..|simpl; lia|].
  intros H. specialize (H [22] eq_refl). simpl in H. lia.
Qed.

(** C10 as amended, with two elements in [rates] for three atom vectors:
    the call returns two results. *)
Lemma result_length_is_min_witness :
  (table_ok (fission_yields (ex_chain [7])) [1; 2; 3] = true /\
   (forall r y,
      exception_of (builder_outcome None (ex_chain [7]) r y) = None) /\
   (forall m v t, exception_of (ex_func m v t) = None)) /\
  (DepletionDispatcher_deplete ex_func (ex_chain [7]) [1; 2; 3] [10; 20] 5
     None (ex_state true [])).2 = Returns [22; 59] /\
  (DepletionDispatcher_deplete ex_func (ex_chain [7]) [1; 2; 3] [10; 20] 5
     None (ex_state false [])).2 = Returns [22; 59] /\
  exists res,
    (DepletionDispatcher_deplete ex_func (ex_chain [7]) [1; 2; 3] [10; 20] 5
       None (ex_state true [])).2 = Returns res /\
    length res = Nat.min (length [10; 20]) (length [1; 2; 3]).
Proof.
  refine (conj _ (conj _ (conj _ _))).
  - split_and!; [reflexivity|intros; reflexivity..].
  - reflexivity.
  - reflexivity.
  - apply (proj2 (proj2 (result_length_is_min ex_func (ex_chain [7])
                           [1; 2; 3] [10; 20] 5 None (ex_state true []))));
      [reflexivity|intros; reflexivity..].
Defined.

(** * The further properties on the small instance *)

(** X1 against a serial dispatcher, a caller's builder being given to the
    module-level function. *)
Lemma deplete_function_returns_default_witness :
  (_pool_class (this (ex_state false [])) = Pool \/
   (forall m v t, ex_func m v t <> Raises StopIteration)) /\
  (deplete ex_func (ex_chain [7]) [1; 2; 3] [10; 20; 30] 5
     (Some ex_matrix_func) (ex_state true [1])).2 = Returns [22; 59; 116] /\
  ((deplete ex_func (ex_chain [7]) [1; 2; 3] [10; 20; 30] 5
      (Some ex_matrix_func) (ex_state true [1])).2 = Returns [22; 59; 116] <->
   (DepletionDispatcher_deplete ex_func (ex_chain [7]) [1; 2; 3] [10; 20; 30]
      5 None (ex_state false [])).2 = Returns [22; 59; 116]).
Proof.
  refine (conj _ (conj _ _)).
  - right. intros m v t. discriminate.
  - reflexivity.
  - apply (deplete_function_returns_default ex_func (ex_chain [7]) [1; 2; 3]
             [10; 20; 30] 5 (Some ex_matrix_func) (ex_state true [1])
             (ex_state false []) [22; 59; 116]).
    right. intros m v t. discriminate.
Defined.

(** X3 on a serial call in which the integration fails. *)
Lemma executor_acquired_and_released_once_witness :
  (length (fission_yields (ex_chain [7])) = 1 \/
   length (fission_yields (ex_chain [7])) = length [1; 2; 3]) /\
  exists calls,
    new_events (ex_state false [])
      (DepletionDispatcher_deplete ex_failing_func (ex_chain [7]) [1; 2; 3]
         [10; 20; 30] 5 None (ex_state false [])).1 =
      EvEnter (_pool_class (this (ex_state false []))) :: calls
        ++ [EvExit (_pool_class (this (ex_state false [])))] /\
    List.filter is_pool calls = [].
Proof.
  split; [left; reflexivity|].
  apply (executor_acquired_and_released_once ex_failing_func (ex_chain [7])
           [1; 2; 3] [10; 20; 30] 5 None (ex_state false [])).
  left; reflexivity.
Defined.

(** X4 with three rates for two atom vectors. *)
Lemma single_yield_surplus_matrix_witness :
  (fission_yields (ex_chain [7]) = [7] /\
   length [1; 2] < length [10; 20; 30] /\
   (DepletionDispatcher_deplete ex_func (ex_chain [7]) [1; 2] [10; 20; 30] 5
      None (ex_state false [])).2 = Returns [22; 59] /\
   length [22; 59] = length [1; 2]) /\
  (length (builder_calls (ex_state false [])
             (DepletionDispatcher_deplete ex_func (ex_chain [7]) [1; 2]
                [10; 20; 30] 5 None (ex_state false [])).1)
     = S (length [1; 2]) /\
   exists r, [10; 20; 30] !! length [1; 2] = Some r /\
     builder_calls (ex_state false [])
       (DepletionDispatcher_deplete ex_func (ex_chain [7]) [1; 2]
          [10; 20; 30] 5 None (ex_state false [])).1
       !! length [1; 2] = Some (builder_event None (ex_chain [7]) r 7)).
Proof.
  split.
  - split_and!; [reflexivity|simpl; lia|reflexivity..].
  - apply (single_yield_surplus_matrix ex_func (ex_chain [7]) [1; 2]
             [10; 20; 30] 5 None (y := 7) (ex_state false [])
             (res := [22; 59]));
      [reflexivity|simpl; lia|reflexivity..].
Defined.

(** X5 with a builder that fails on the third rate, for two atom vectors:
    the call raises, in the serial shim as in the process pool. *)
Lemma surplus_builder_failure_fails_call_witness :
  (fission_yields (ex_chain [7]) = [7] /\
   [10; 20; 30] !! length [1; 2] = Some 30 /\
   builder_outcome (Some ex_failing_matrix_func) (ex_chain [7]) 30 7
     = Raises (Raised 30) /\
   @Raised nat 30 <> StopIteration) /\
  (DepletionDispatcher_deplete ex_func (ex_chain [7]) [1; 2] [10; 20; 30] 5
     (Some ex_failing_matrix_func) (ex_state false [])).2
    = Raises (Raised 30) /\
  forall res,
    (DepletionDispatcher_deplete ex_func (ex_chain [7]) [1; 2] [10; 20; 30] 5
       (Some ex_failing_matrix_func) (ex_state false [])).2 = Returns res ->
    length res < length [1; 2].
Proof.
  refine (conj _ (conj _ _)).
  - split_and!; [reflexivity..|discriminate].
  - reflexivity.
  - apply (surplus_builder_failure_fails_call ex_func (ex_chain [7]) [1; 2]
             [10; 20; 30] 5 (Some ex_failing_matrix_func) (y := 7) (r := 30)
             (e := Raised 30) (ex_state false []));
      [reflexivity..|discriminate].
Defined.

(** X6 on three materials with a yield each. *)
Lemma serial_calls_interleave_witness :
  (_pool_class (this (ex_state false [])) = PoolShim /\
   (DepletionDispatcher_deplete ex_func (ex_chain [7; 8; 9]) [1; 2; 3]
      [10; 20; 30] 5 None (ex_state false [])).2 = Returns [22; 61; 122]) /\
  forall i w, [22; 61; 122] !! i = Some w ->
    exists r y m v,
      paired [10; 20; 30] (fission_yields (ex_chain [7; 8; 9])) !! i
        = Some (r, y) /\
      builder_outcome None (ex_chain [7; 8; 9]) r y = Returns m /\
      [1; 2; 3] !! i = Some v /\
      new_events (ex_state false [])
        (DepletionDispatcher_deplete ex_func (ex_chain [7; 8; 9]) [1; 2; 3]
           [10; 20; 30] 5 None (ex_state false [])).1
        !! (1 + 2 * i) = Some (builder_event None (ex_chain [7; 8; 9]) r y) /\
      new_events (ex_state false [])
        (DepletionDispatcher_deplete ex_func (ex_chain [7; 8; 9]) [1; 2; 3]
           [10; 20; 30] 5 None (ex_state false [])).1
        !! (2 + 2 * i) = Some (EvFunc m v 5).
Proof.
  split.
  - split; reflexivity.
  - apply (serial_calls_interleave ex_func (ex_chain [7; 8; 9]) [1; 2; 3]
             [10; 20; 30] 5 None (ex_state false []) (res := [22; 61; 122]));
      reflexivity.
Defined.

(** X7 on a serial call whose second integration fails. *)
Lemma serial_failure_is_last_call_witness :
  (_pool_class (this (ex_state false [])) = PoolShim /\
   (length (fission_yields (ex_chain [7])) = 1 \/
    length (fission_yields (ex_chain [7])) = length [3; 1; 2]) /\
   (DepletionDispatcher_deplete ex_failing_func (ex_chain [7]) [3; 1; 2]
      [10; 20; 30] 5 None (ex_state false [])).2 = Raises (Raised 1)) /\
  exists pre last,
    new_events (ex_state false [])
      (DepletionDispatcher_deplete ex_failing_func (ex_chain [7]) [3; 1; 2]
         [10; 20; 30] 5 None (ex_state false [])).1 =
      EvEnter PoolShim :: pre ++ [last; EvExit PoolShim] /\
    raised_by ex_failing_func None last = Some (Raised 1) /\
    first_raise (raised_by ex_failing_func None) pre = None.
Proof.
  split.
  - split_and!; [reflexivity|left; reflexivity|reflexivity].
  - apply (serial_failure_is_last_call ex_failing_func (ex_chain [7])
             [3; 1; 2] [10; 20; 30] 5 None (ex_state false [])
             (e := Raised 1));
      [reflexivity|left; reflexivity|reflexivity].
Defined.

(** X9 with three atom vectors and no rates, in the process pool. *)
Lemma empty_rates_return_nothing_witness :
  (length (fission_yields (ex_chain [7])) = 1 \/
   length (fission_yields (ex_chain [7])) = length [1; 2; 3]) /\
  (new_events (ex_state true [2])
     (DepletionDispatcher_deplete ex_func (ex_chain [7]) [1; 2; 3] [] 5 None
        (ex_state true [2])).1 =
     [EvEnter (_pool_class (this (ex_state true [2])));
      EvExit (_pool_class (this (ex_state true [2])))] /\
   (DepletionDispatcher_deplete ex_func (ex_chain [7]) [1; 2; 3] [] 5 None
      (ex_state true [2])).2 = Returns []).
Proof.
  split; [left; reflexivity|].
  apply (empty_rates_return_nothing ex_func (ex_chain [7]) [1; 2; 3] 5 None
           (ex_state true [2])).
  left; reflexivity.
Defined.

(** X11 with two rates for three atom vectors, in the serial shim. *)
Lemma single_yield_equals_repeated_table_witness :
  (fission_yields (ex_chain [7]) = [7] /\
   length [10; 20] <= length [1; 2; 3] /\
   _pool_class (this (ex_state false [1])) =
     _pool_class (this (ex_state false []))) /\
  (DepletionDispatcher_deplete ex_func (ex_chain [7]) [1; 2; 3] [10; 20] 5
     None (ex_state false [])).2 = Returns [22; 59] /\
  ((DepletionDispatcher_deplete ex_func (ex_chain [7]) [1; 2; 3] [10; 20] 5
      None (ex_state false [])).2 = Returns [22; 59] <->
   (DepletionDispatcher_deplete ex_func
      {| fission_yields := replicate (length [1; 2; 3]) 7;
         form_matrix := form_matrix (ex_chain [7]) |}
      [1; 2; 3] [10; 20] 5 None (ex_state false [1])).2 = Returns [22; 59]).
Proof.
  refine (conj _ (conj _ _)).
  - split_and!; [reflexivity|simpl; lia|reflexivity].
  - reflexivity.
  - apply (single_yield_equals_repeated_table ex_func (ex_chain [7])
             [1; 2; 3] [10; 20] 5 (y := 7) (ex_state false [])
             (ex_state false [1]) [22; 59]);
      [reflexivity|simpl; lia|reflexivity].
Defined.
